(** * Weighted PageRank (pageRank.c): a shallow embedding and its properties

    The program reads a collection of pages, builds the link graph as a dense
    matrix, derives the two weight matrices Win and Wout and iterates the
    weighted rank update until the L1 change drops below a threshold or the
    iteration counter reaches its cap.

    Conventions of the embedding.
    - A C [int] is a [Z]; no counter of the program can leave the [int] range
      (each is bounded by [nV] or by [maxIterations]).
    - A C [double] is an element of a type [F] that carries the operations the
      program uses (class [Double]).  Theorems that only follow the control
      and data flow hold for every such [F], binary64 included; theorems that
      need laws of arithmetic are stated for the exact rationals [Q], where
      [==] is [Qeq] and [x / 0] is 0.  Those say nothing about the rounding,
      the infinities and the NaN of binary64, which show in the runs at the
      end only.
    - The linked list of pages is a [list Node]; the pointer walk over it is a
      walk over the Rocq list, and a store through a node pointer rewrites
      that element of the list.
    - A run that the C program does not survive (a failed [assert], a
      dereference of the [NULL] that [getNode] returns, a failed [fopen]) is
      [None].
    - A file is the list of its characters, and a file system gives the
      content of a file by name.  [fgets], [strlen], [fseek] and
      [fscanf "%s"] act on that list as the C library does on the stream; a
      word longer than the 100 characters of the [url] buffer is delivered
      whole. *)

From Stdlib Require Import ZArith QArith Qabs Lia Bool Ascii String.
From Stdlib Require Import Floats.PrimFloat Numbers.Cyclic.Int63.Uint63.
From stdpp Require Import base option list list_numbers.

#[local] Open Scope Z_scope.

(** ** Arithmetic on [double] *)

(** The operations of [double] that pageRank.c uses. *)
Class Double (F : Type) : Type := {
  of_int : Z -> F;          (* an int as a double, also the literals 0, 1 *)
  half : F;                 (* the literal 0.5 *)
  dadd : F -> F -> F;
  dsub : F -> F -> F;
  dmul : F -> F -> F;
  ddiv : F -> F -> F;
  dabs : F -> F;            (* fabs *)
  deqb : F -> F -> bool;    (* == *)
  dgeb : F -> F -> bool     (* >= *)
}.

(** Exact rational arithmetic. *)
#[export] Instance Q_Double : Double Q := {|
  of_int := inject_Z;
  half := (1 # 2)%Q;
  dadd := Qplus;
  dsub := Qminus;
  dmul := Qmult;
  ddiv := Qdiv;
  dabs := Qabs;
  deqb := Qeq_bool;
  dgeb := fun x y => Qle_bool y x
|}.

(** IEEE 754 binary64, the [double] of the C program.  An [int] converts
    exactly. *)
#[export] Instance Binary64_Double : Double float := {|
  of_int := fun z =>
    if z <? 0
    then PrimFloat.opp (PrimFloat.of_uint63 (Uint63.of_Z (- z)))
    else PrimFloat.of_uint63 (Uint63.of_Z z);
  half := 0.5%float;
  dadd := PrimFloat.add;
  dsub := PrimFloat.sub;
  dmul := PrimFloat.mul;
  ddiv := PrimFloat.div;
  dabs := PrimFloat.abs;
  deqb := PrimFloat.eqb;
  dgeb := fun x y => PrimFloat.leb y x
|}.

(** Unfolds the operations of [Q_Double]. *)
Ltac q_ops :=
  cbn [dadd dsub dmul ddiv dabs deqb dgeb of_int half Q_Double] in *.

(** ** A monadic left fold: a C loop with an accumulator that may abort *)

Fixpoint foldlM {A B : Type} (f : B -> A -> option B) (b : B) (xs : list A)
  : option B :=
  match xs with
  | [] => Some b
  | x :: xs' => match f b x with
                | Some b' => foldlM f b' xs'
                | None => None
                end
  end.

(** ** Files and the stdio calls of the loader *)

(** [#define MAX_STRLEN 100] *)
Definition MAX_STRLEN : nat := 100.

(** [isspace] in the C locale: space, and the five characters from [\t] to
    [\r]. *)
Definition isspace (c : ascii) : bool :=
  let n := nat_of_ascii c in
  Nat.eqb n 32 || (Nat.leb 9 n && Nat.leb n 13).

(** The line feed. *)
Definition newline : ascii := ascii_of_nat 10.

(** The string that a [char] array holds: its characters before the first
    NUL. *)
Fixpoint cstring (buffer : list ascii) : string :=
  match buffer with
  | [] => EmptyString
  | c :: rest =>
      if Ascii.eqb c Ascii.zero then EmptyString else String c (cstring rest)
  end.

(** [strlen] *)
Definition strlen (buffer : list ascii) : nat := String.length (cstring buffer).

(** The characters that [fgets] stores while there is [room]: it stops behind
    a newline, when the room is used up, or at the end of the file. *)
Fixpoint fgets_chars (room : nat) (fp : list ascii) : list ascii :=
  match room, fp with
  | S room', c :: rest =>
      if Ascii.eqb c newline then [c] else c :: fgets_chars room' rest
  | _, _ => []
  end.

(** [fgets(buffer, size, fp)] on a file just opened: the characters stored in
    the buffer, at most [size - 1]; a NUL follows them.  On an empty file
    [fgets] stores nothing and the C buffer keeps what it held; no character
    of the file lies behind any offset then, so that the length 0 taken here
    leads to the same words as any other. *)
Definition fgets (size : nat) (fp : list ascii) : list ascii :=
  fgets_chars (size - 1) fp.

(** The words that successive calls of [fscanf(fp, "%s", url)] deliver until
    one returns [EOF]: the maximal runs of characters that are no white
    space, each as the string that [url] holds after the call.  [word] is the
    run being read, its last character first. *)
Fixpoint scanWords (word : list ascii) (fp : list ascii) : list string :=
  match fp with
  | [] => match word with
          | [] => []
          | _ => [cstring (rev word)]
          end
  | c :: rest =>
      if isspace c
      then match word with
           | [] => scanWords [] rest
           | _ => cstring (rev word) :: scanWords [] rest
           end
      else scanWords (c :: word) rest
  end.

Definition fscanf_s (fp : list ascii) : list string := scanWords [] fp.

(** The words that insertEdges reads of a page's file: those that [fscanf]
    delivers from the offset that [fgets] and [strlen] give. *)
Definition linkWords (fp : list ascii) : list string :=
  fscanf_s (drop (strlen (fgets MAX_STRLEN fp)) fp).

(** A text file of the given lines, each closed by a newline. *)
Definition textFile (lines : list string) : list ascii :=
  concat ((fun line => list_ascii_of_string line ++ [newline]) <$> lines).

Section Engine.

Context {F : Type} {D : Double F}.

(** ** Data: list nodes, graphs, edges *)

(** Modelled from the spec: the node type of the absent List.h.  These are
    the fields of the spec's Node, which are also the fields that pageRank.c
    reads and writes ([url] is the label, [next] is the list itself). *)
Record Node : Type := mkNode {
  url : string;
  index : Z;
  rank : F;
  prevRank : F;
  inDegree : F;
  outDegree : F
}.

(** [l->size] *)
Definition size (l : list Node) : Z := Z.of_nat (length l).

(** The stores the program makes through a node pointer. *)
Definition set_rank (x : F) (n : Node) : Node :=
  mkNode (url n) (index n) x (prevRank n) (inDegree n) (outDegree n).

Definition set_prevRank (x : F) (n : Node) : Node :=
  mkNode (url n) (index n) (rank n) x (inDegree n) (outDegree n).

(** Modelled from the spec: the graph type of the absent Graph.h, [N] nodes
    and a weight [edges[i][j]] for every pair, 0 for "no edge".  pageRank.c
    reads [g->nV] and [g->edges[v][w]], the latter only with both indices in
    [0, nV); the matrix is a function of the two indices. *)
Record Graph : Type := mkGraph {
  nV : Z;
  edges : Z -> Z -> F
}.

(** Modelled from the spec: the edge type of the absent Graph.h, initialised
    in pageRank.c as [{from, to, weight}]. *)
Record Edge : Type := mkEdge {
  v : Z;
  w : Z;
  weight : F
}.

(** Modelled from the spec: Graph.h and its implementation (GraphNew,
    GraphInsertEdge) are not part of the source file.  The spec fixes the node
    count at construction, makes 0 mean "no edge", lets [weight(from,to)]
    return the stored weight, and leaves open whether an insertion with
    [from == to] fails or does nothing.  The interface below states only
    what every such implementation does: a new graph has no edge, an insertion
    touches no cell but its own, and it stores the weight of a proper edge in
    a cell that is still 0.  Nothing is assumed about an insertion on the
    diagonal or into an occupied cell. *)
Class GraphADT : Type := {
  GraphNew : Z -> Graph;
  GraphInsertEdge : Graph -> Edge -> Graph;
  GraphNew_nV : forall n, nV (GraphNew n) = n;
  GraphNew_edges : forall n a b, edges (GraphNew n) a b = of_int 0;
  GraphInsertEdge_nV : forall g e, nV (GraphInsertEdge g e) = nV g;
  GraphInsertEdge_frame : forall g e a b,
    (a, b) <> (v e, w e) -> edges (GraphInsertEdge g e) a b = edges g a b;
  GraphInsertEdge_fresh : forall g e,
    v e <> w e -> edges g (v e) (w e) = of_int 0 ->
    edges (GraphInsertEdge g e) (v e) (w e) = weight e
}.

Context {G : GraphADT}.

(** ** Graph queries *)

(** isAdjacent: [g->edges[v][w] != 0]. *)
Definition isAdjacent (g : Graph) (a b : Z) : bool :=
  negb (deqb (edges g a b) (of_int 0)).

(** The vertex range of [for (int x = 0; x < g->nV; x++)]. *)
Definition vertices (g : Graph) : list Z := seqZ 0 (nV g).

(** incomingDegree: an [int] counter, converted on return. *)
Definition incomingDegree (g : Graph) (urlA : Z) : F :=
  of_int (foldl (fun degree urlB =>
                   if isAdjacent g urlB urlA then degree + 1 else degree)
                0 (vertices g)).

(** outgoingDegree: a [double] counter. *)
Definition outgoingDegree (g : Graph) (urlA : Z) : F :=
  foldl (fun degree urlB =>
           if isAdjacent g urlA urlB then dadd degree (of_int 1) else degree)
        (of_int 0) (vertices g).

(** getNode: the assertion, then a linear search; [NULL] when no node has
    the index. *)
Definition getNode (l : list Node) (idx : Z) : option Node :=
  if (0 <=? idx) && (idx <? size l)
  then List.find (fun n => index n =? idx) l
  else None.

(** initialiseRankAndDegree *)
Definition initialiseRankAndDegree (l : list Node) (g : Graph) (N : F)
  : list Node :=
  (fun pi => mkNode (url pi) (index pi)
                    (ddiv (of_int 1) N) (prevRank pi)
                    (incomingDegree g (index pi))
                    (outgoingDegree g (index pi))) <$> l.

(** ** The weight matrices *)

(** The accumulator loop of calculateWin: the in-degrees of the pages that
    row [pjRow] links to, added up in column order. *)
Definition pjTotalIncomingLinks (l : list Node) (g : Graph) (pjRow : Z)
  : option F :=
  foldlM (fun total pjCol =>
            if isAdjacent g pjRow pjCol
            then refPage ← getNode l pjCol;
                 Some (dadd total (inDegree refPage))
            else Some total)
         (of_int 0) (vertices g).

(** calculateWin *)
Definition calculateWin (l : list Node) (g : Graph) (pj pi : Node)
  : option F :=
  total ← pjTotalIncomingLinks l g (index pj);
  Some (ddiv (inDegree pi) total).

(** The accumulator loop of calculateWout, before the final test. *)
Definition pjTotalOutgoingLinks (l : list Node) (g : Graph) (pjRow : Z)
  : option F :=
  foldlM (fun total pjCol =>
            if isAdjacent g pjRow pjCol
            then refPage ← getNode l pjCol;
                 if deqb (outDegree refPage) (of_int 0)
                 then Some (dadd total half)
                 else Some (dadd total (outDegree refPage))
            else Some total)
         (of_int 0) (vertices g).

(** calculateWout *)
Definition calculateWout (l : list Node) (g : Graph) (pj pi : Node)
  : option F :=
  let piOutgoingLinks :=
    if deqb (outDegree pi) (of_int 0) then half else outDegree pi in
  total ← pjTotalOutgoingLinks l g (index pj);
  let total' := if deqb total (of_int 0) then half else total in
  Some (ddiv piOutgoingLinks total').

(** setGraphWin *)
Definition setGraphWin (l : list Node) (g : Graph) : option Graph :=
  foldlM (fun gWin pj =>
    foldlM (fun gWin pi =>
      if isAdjacent g pj pi && negb (pj =? pi)
      then pjNode ← getNode l pj;
           piNode ← getNode l pi;
           Win ← calculateWin l g pjNode piNode;
           Some (GraphInsertEdge gWin (mkEdge pj pi Win))
      else Some gWin)
      gWin (vertices g))
    (GraphNew (nV g)) (vertices g).

(** setGraphWout *)
Definition setGraphWout (l : list Node) (g : Graph) : option Graph :=
  foldlM (fun gWout pj =>
    foldlM (fun gWout pi =>
      if isAdjacent g pj pi && negb (pj =? pi)
      then pjNode ← getNode l pj;
           piNode ← getNode l pi;
           Wout ← calculateWout l g pjNode piNode;
           Some (GraphInsertEdge gWout (mkEdge pj pi Wout))
      else Some gWout)
      gWout (vertices g))
    (GraphNew (nV g)) (vertices g).

(** ** One iteration *)

(** getPageWeight *)
Definition getPageWeight (l : list Node) (g gWin gWout : Graph) (pi : Node)
  : option F :=
  let piIndex := index pi in
  foldlM (fun totalWeight pjIndex =>
            if isAdjacent g pjIndex piIndex
            then pj ← getNode l pjIndex;
                 let Wout := edges gWout pjIndex piIndex in
                 let Win := edges gWin pjIndex piIndex in
                 Some (dadd totalWeight (dmul (dmul (prevRank pj) Wout) Win))
            else Some totalWeight)
         (of_int 0) (vertices g).

(** calculateDiff *)
Definition calculateDiff (l : list Node) : F :=
  foldl (fun diff pi => dadd diff (dabs (dsub (rank pi) (prevRank pi))))
        (of_int 0) l.

(** A walk [for (Node pi = l->head; pi != NULL; pi = pi->next)] whose body
    reads the list as it is at that moment and stores into the current node.
    [passed] holds the nodes already visited, with the values stored into
    them; [ahead] the current node and those after it.  The list in memory is
    [passed ++ ahead]. *)
Fixpoint walk (body : list Node -> Node -> option Node)
    (passed ahead : list Node) : option (list Node) :=
  match ahead with
  | [] => Some passed
  | pi :: rest =>
      match body (passed ++ pi :: rest) pi with
      | Some pi' => walk body (passed ++ [pi']) rest
      | None => None
      end
  end.

(** The first inner loop of calculatePageRank: [pi->prevRank = pi->rank]. *)
Definition storePrevRank (l : list Node) : option (list Node) :=
  walk (fun _ pi => Some (set_prevRank (rank pi) pi)) [] l.

(** The second inner loop: the rank update, in place. *)
Definition updateRank (d N : F) (g gWin gWout : Graph) (l : list Node)
  : option (list Node) :=
  walk (fun mem pi =>
          weights ← getPageWeight mem g gWin gWout pi;
          Some (set_rank (dadd (ddiv (dsub (of_int 1) d) N) (dmul d weights))
                         pi))
       [] l.

(** The body of the [for] loop of calculatePageRank, up to the new list. *)
Definition rankStep (d N : F) (g gWin gWout : Graph) (l : list Node)
  : option (list Node) :=
  l1 ← storePrevRank l;
  updateRank d N g gWin gWout l1.

(** The [for] loop of calculatePageRank.  The result is the final value of
    the counter [i] and the list; the loop has made [i - 1] passes.  [fuel]
    bounds the number of passes. *)
Fixpoint rankLoop (fuel : nat) (d N diffPR : F) (maxIterations : Z)
    (g gWin gWout : Graph) (i : Z) (diff : F) (l : list Node)
  : option (Z * list Node) :=
  if (i <? maxIterations) && dgeb diff diffPR
  then match fuel with
       | O => None
       | S fuel' =>
           l' ← rankStep d N g gWin gWout l;
           rankLoop fuel' d N diffPR maxIterations g gWin gWout
                    (i + 1) (calculateDiff l') l'
       end
  else Some (i, l).

(** calculatePageRank.  Beside the list it returns the final value of the
    loop counter. *)
Definition calculatePageRank (l : list Node) (g : Graph) (d diffPR : F)
    (maxIterations : Z) : option (Z * list Node) :=
  let N := of_int (nV g) in
  let l := initialiseRankAndDegree l g N in
  gWin ← setGraphWin l g;
  gWout ← setGraphWout l g;
  rankLoop (Z.to_nat maxIterations) d N diffPR maxIterations g gWin gWout
           1 diffPR l.

(** ** The loader *)

(** getUrlIndex *)
Definition getUrlIndex (l : list Node) (word : string) : Z :=
  match List.find (fun n => String.eqb word (url n)) l with
  | Some n => index n
  | None => -1
  end.

(** The [while] loop of insertEdges.  [words] are the words that [fscanf]
    delivers from the position of the stream; the end of the list is
    [EOF]. *)
Fixpoint insertEdgesLoop (g : Graph) (l : list Node) (words : list string)
    (curr : Node) : Graph :=
  match words with
  | [] => g
  | word :: rest =>
      if String.eqb word "#end" then g
      else
        let outlinkIndex := getUrlIndex l word in
        let g' :=
          if (0 <=? outlinkIndex) && negb (outlinkIndex =? index curr)
          then GraphInsertEdge g (mkEdge (index curr) outlinkIndex (of_int 1))
          else g in
        insertEdgesLoop g' l rest curr
  end.

(** insertEdges.  [fp] is the file of the page [curr], just opened.  The
    stream is moved behind what [fgets] took for the first line, [fseek] to
    the length of the buffer; the loop reads on from there. *)
Definition insertEdges (g : Graph) (l : list Node) (fp : list ascii)
    (curr : Node) : Graph :=
  let buffer := fgets MAX_STRLEN fp in
  let file_offset := strlen buffer in
  let fp := drop file_offset fp in
  insertEdgesLoop g l (fscanf_s fp) curr.

(** createGraph.  [fs] maps a file name to the content of that file, [None]
    when [fopen] fails. *)
Definition createGraph (fs : string -> option (list ascii)) (l : list Node)
  : option Graph :=
  foldlM (fun g curr =>
            fp ← fs (url curr ++ ".txt")%string;
            Some (insertEdges g l fp curr))
         (GraphNew (size l)) l.

(** Modelled from the spec: ListAppend of the absent List.c.  The spec makes
    the indices dense in [0, N) and stable: a new node takes the next free
    index.  Its numeric fields are written by calculatePageRank before they
    are read; here they start at 0. *)
Definition ListAppend (l : list Node) (name : string) : list Node :=
  l ++ [mkNode name (size l) (of_int 0) (of_int 0) (of_int 0) (of_int 0)].

(** readCollectionFile.  For an empty collection the C function returns
    [NULL], which createGraph dereferences at once: [None] here. *)
Definition readCollectionFile (fs : string -> option (list ascii))
  : option (list Node) :=
  fp ← fs "collection.txt"%string;
  match foldl ListAppend [] (fscanf_s fp) with
  | [] => None
  | urlList => Some urlList
  end.

(** main, from the parsed arguments to the list handed to ListSort and
    ListPrint. *)
Definition main (fs : string -> option (list ascii)) (d diffPR : F)
    (maxIterations : Z) : option (list Node) :=
  urlList ← readCollectionFile fs;
  urlGraph ← createGraph fs urlList;
  result ← calculatePageRank urlList urlGraph d diffPR maxIterations;
  Some (snd result).

(** ** Notions used in the statements *)

(** The list and the graph fit together: the graph has one vertex per node
    and the node indices are 0 .. N-1, each once, in any order. *)
Definition wf (l : list Node) (g : Graph) : Prop :=
  nV g = size l /\ index <$> l ≡ₚ seqZ 0 (size l).

(** A sum of doubles, added from the left starting at 0. *)
Definition sumF (xs : list F) : F := foldl dadd (of_int 0) xs.

(** The vertices [j] with an edge [j -> i], in increasing order. *)
Definition inNeighbours (g : Graph) (i : Z) : list Z :=
  List.filter (fun j => isAdjacent g j i) (vertices g).

(** The vertices [k] with an edge [j -> k], in increasing order. *)
Definition outNeighbours (g : Graph) (j : Z) : list Z :=
  List.filter (fun k => isAdjacent g j k) (vertices g).

(** The degrees of a vertex as the graph has them: the number of edges that
    end in [i], and the number of edges that start from [j]. *)
Definition inCount (g : Graph) (i : Z) : Z :=
  Z.of_nat (length (inNeighbours g i)).

Definition outCount (g : Graph) (j : Z) : Z :=
  Z.of_nat (length (outNeighbours g j)).

(** The rank vector and the index vector, in list order. *)
Definition ranks (l : list Node) : list F := rank <$> l.

Definition indices (l : list Node) : list Z := index <$> l.

(** The rank of the node with index [j]. *)
Definition rankOf (l : list Node) (j : Z) : option F := rank <$> getNode l j.

(** weight(i): the sum over the in-neighbours [j] of [i] of
    [prev j * Wout[j][i] * Win[j][i]]. *)
Definition weightSum (prev : Z -> F) (g gWin gWout : Graph) (i : Z) : F :=
  sumF ((fun j => dmul (dmul (prev j) (edges gWout j i)) (edges gWin j i))
          <$> inNeighbours g i).

(** [(1 - d) / N + d * weights] *)
Definition newRank (d N weights : F) : F :=
  dadd (ddiv (dsub (of_int 1) d) N) (dmul d weights).

(** The list after [rank] has been copied into [prevRank] everywhere. *)
Definition snapshot (l : list Node) : list Node :=
  (fun pi => set_prevRank (rank pi) pi) <$> l.

(** One iteration as a map over the snapshot: every new rank is computed
    from the snapshot alone. *)
Definition rankStep_pure (d N : F) (g gWin gWout : Graph) (l : list Node)
  : option (list Node) :=
  let snap := snapshot l in
  mapM (fun pi => weights ← getPageWeight snap g gWin gWout pi;
                  Some (set_rank (newRank d N weights) pi)) snap.

(** The body of the update walk. *)
Definition updateBody (d N : F) (g gWin gWout : Graph) (mem : list Node)
    (pi : Node) : option Node :=
  weights ← getPageWeight mem g gWin gWout pi;
  Some (set_rank (newRank d N weights) pi).

(** Two lists agree, node by node, on what getPageWeight reads of a node:
    its index and its previous rank. *)
Definition sameKeys : list Node -> list Node -> Prop :=
  Forall2 (fun a b => index a = index b /\ prevRank a = prevRank b).

(** The number of passes behind a result of calculatePageRank. *)
Definition passes (r : Z * list Node) : Z := fst r - 1.

(** [k] iterations in a row. *)
Fixpoint iterSteps (d N : F) (g gWin gWout : Graph) (k : nat) (l : list Node)
  : option (list Node) :=
  match k with
  | O => Some l
  | S k' => l' ← rankStep d N g gWin gWout l;
            iterSteps d N g gWin gWout k' l'
  end.

(** The double loop that setGraphWin and setGraphWout share; [calc] is
    calculateWin or calculateWout. *)
Definition setGraphW (calc : list Node -> Graph -> Node -> Node -> option F)
    (l : list Node) (g : Graph) : option Graph :=
  foldlM (fun gW pj =>
    foldlM (fun gW pi =>
      if isAdjacent g pj pi && negb (pj =? pi)
      then pjNode ← getNode l pj;
           piNode ← getNode l pi;
           W ← calc l g pjNode piNode;
           Some (GraphInsertEdge gW (mkEdge pj pi W))
      else Some gW)
      gW (vertices g))
    (GraphNew (nV g)) (vertices g).

(** The body of the double loop once the weight of each pair is known. *)
Definition putW (W : Z -> Z -> F) (g gW : Graph) (pj pi : Z) : Graph :=
  if isAdjacent g pj pi && negb (pj =? pi)
  then GraphInsertEdge gW (mkEdge pj pi (W pj pi))
  else gW.

(** effOut: the out-degree, or 0.5 in place of 0. *)
Definition effOut (x : F) : F := if deqb x (of_int 0) then half else x.

(** The rank of the node with index [j], 0 if there is none. *)
Definition rankAt (l : list Node) (j : Z) : F :=
  default (of_int 0) (rankOf l j).

(** One iteration in closed form: every node gets its new rank from the
    ranks of the list before the iteration. *)
Definition stepList (d N : F) (g gWin gWout : Graph) (l : list Node)
  : list Node :=
  (fun pi => set_rank
               (newRank d N (weightSum (rankAt l) g gWin gWout (index pi)))
               (set_prevRank (rank pi) pi)) <$> l.

(** Same url, index and degrees. *)
Definition sameShape (a b : Node) : Prop :=
  url b = url a /\ index b = index a
  /\ inDegree b = inDegree a /\ outDegree b = outDegree a.

(** The edges that the loop of insertEdges hands to GraphInsertEdge on the
    given words, in order. *)
Fixpoint insertedEdges (l : list Node) (words : list string) (curr : Node)
  : list Edge :=
  match words with
  | [] => []
  | word :: rest =>
      if String.eqb word "#end" then []
      else
        let outlinkIndex := getUrlIndex l word in
        if (0 <=? outlinkIndex) && negb (outlinkIndex =? index curr)
        then mkEdge (index curr) outlinkIndex (of_int 1)
               :: insertedEdges l rest curr
        else insertedEdges l rest curr
  end.

End Engine.

Arguments Node F : clear implicits.
Arguments Graph F : clear implicits.
Arguments Edge F : clear implicits.
Arguments GraphADT F {D}.

(** ** An implementation of Graph.h *)

(** Modelled from the spec: GraphNew of the absent Graph.c, a graph of [n]
    nodes in which every cell is 0. *)
Definition MatrixNew {F : Type} {D : Double F} (n : Z) : Graph F :=
  mkGraph n (fun _ _ => of_int 0).

(** Modelled from the spec: GraphInsertEdge of the absent Graph.c.  An
    insertion with [from == to] does nothing; any other stores the weight in
    the cell. *)
Definition MatrixInsertEdge {F : Type} {D : Double F}
    (g : Graph F) (e : Edge F) : Graph F :=
  if v e =? w e then g
  else mkGraph (nV g)
               (fun a b => if (a =? v e) && (b =? w e) then weight e
                           else edges g a b).

#[export, refine] Instance Matrix_GraphADT {F : Type} {D : Double F}
  : GraphADT F :=
  {| GraphNew := MatrixNew; GraphInsertEdge := MatrixInsertEdge |}.
Proof.
  - reflexivity.
  - reflexivity.
  - intros g e. unfold MatrixInsertEdge. destruct (v e =? w e); reflexivity.
  - intros g e a b Hne. unfold MatrixInsertEdge.
    destruct (v e =? w e); [reflexivity|]. simpl.
    destruct (Z.eqb_spec a (v e)) as [->|]; [|reflexivity].
    destruct (Z.eqb_spec b (w e)) as [->|]; [|reflexivity].
    congruence.
  - intros g e Hne _. unfold MatrixInsertEdge.
    destruct (Z.eqb_spec (v e) (w e)); [congruence|]. simpl.
    rewrite !Z.eqb_refl. reflexivity.
Defined.

(** ** A small collection *)

(** Two pages, "a" and "b".  After its first line the file of "a" names
    "b", itself, an unknown page and, behind [#end], "b" again; the file of
    "b" names "a" on its first line and nothing after it. *)
Definition page (name : string) (i : Z) : Node Q :=
  mkNode name i 0%Q 0%Q 0%Q 0%Q.

Definition pages2 : list (Node Q) := [page "a" 0; page "b" 1].

Definition file_a : list ascii :=
  textFile ["#start Section-1"; ""; "b a"; " c"; "#end Section-1"; "";
            "#start Section-2"; "b"; "#end Section-2"]%string.

Definition file_b : list ascii :=
  textFile ["#start Section-1 a"; "#end Section-1"]%string.

Definition files2 (name : string) : option (list ascii) :=
  if String.eqb name "collection.txt" then Some (textFile ["a  b"]%string)
  else if String.eqb name "a.txt" then Some file_a
  else if String.eqb name "b.txt" then Some file_b
  else None.

Definition graph2 : Graph Q :=
  GraphInsertEdge (GraphNew 2) (mkEdge 0 1 1%Q).

(** The graph of two pages without any link. *)
Definition unlinked2 : Graph Q := GraphNew 2.

(** Three pages in a cycle [0 -> 1 -> 2 -> 0]. *)
Definition pages3 : list (Node Q) := [page "a" 0; page "b" 1; page "c" 2].

Definition graph3 : Graph Q :=
  GraphInsertEdge
    (GraphInsertEdge (GraphInsertEdge (GraphNew 3) (mkEdge 0 1 1%Q))
                     (mkEdge 1 2 1%Q))
    (mkEdge 2 0 1%Q).

(** The two pages and their graph in binary64, and ten pages without
    links. *)
Definition fpage (name : string) (i : Z) : Node float :=
  mkNode name i 0%float 0%float 0%float 0%float.

Definition fpages2 : list (Node float) := [fpage "a" 0; fpage "b" 1].

Definition fgraph2 : Graph float :=
  GraphInsertEdge (GraphNew 2) (mkEdge 0 1 1%float).

Definition fpages10 : list (Node float) := fpage "" <$> seqZ 0 10.

(** The same two pages in the other order, with ranks, and the ranks by
    index. *)
Definition prev2 (j : Z) : Q := if j =? 0 then (1 # 4)%Q else (3 # 4)%Q.

Definition ranked2 : list (Node Q) :=
  [mkNode "b" 1 (3 # 4)%Q 0%Q 1%Q 0%Q; mkNode "a" 0 (1 # 4)%Q 0%Q 0%Q 1%Q].

(** * Properties *)

Section EngineFacts.

Context {F : Type} {D : Double F} {G : GraphADT F}.
Implicit Types (l : list (Node F)) (g : Graph F).

(** ** Folds *)

Lemma foldlM_ext {A B} (f h : B -> A -> option B) b xs :
  (forall a x, x ∈ xs -> f a x = h a x) -> foldlM f b xs = foldlM h b xs.
Proof.
  revert b. induction xs as [|x xs IH]; intros b Hfh; simpl; [done|].
  rewrite Hfh by left. destruct (h b x); [|done].
  apply IH. intros a y Hy. apply Hfh. by right.
Qed.

Lemma foldlM_pure {A B} (f : B -> A -> option B) (h : B -> A -> B) b xs :
  (forall a x, x ∈ xs -> f a x = Some (h a x)) ->
  foldlM f b xs = Some (foldl h b xs).
Proof.
  revert b. induction xs as [|x xs IH]; intros b Hfh; simpl; [done|].
  rewrite Hfh by left. apply IH. intros a y Hy. apply Hfh. by right.
Qed.

Lemma foldl_filter_map {A B C} (p : A -> bool) (t : A -> C)
    (op : B -> C -> B) b xs :
  foldl (fun acc x => if p x then op acc (t x) else acc) b xs
  = foldl op b (t <$> List.filter p xs).
Proof.
  revert b. induction xs as [|x xs IH]; intros b; simpl; [done|].
  destruct (p x); simpl; apply IH.
Qed.

Lemma elem_of_vertices g i : i ∈ vertices g <-> 0 <= i < nV g.
Proof. unfold vertices. rewrite elem_of_seqZ. lia. Qed.

Lemma find_index_Some l i n :
  List.find (fun n => index n =? i) l = Some n -> index n = i /\ n ∈ l.
Proof.
  intros H. apply find_some in H as [Hin Heq].
  split; [lia | by apply list_elem_of_In].
Qed.

Lemma getNode_Some l i n :
  getNode l i = Some n -> index n = i /\ n ∈ l /\ 0 <= i < size l.
Proof.
  unfold getNode.
  destruct (Z.leb_spec 0 i), (Z.ltb_spec i (size l)); simpl; try done.
  intros Hf. apply find_index_Some in Hf. intuition lia.
Qed.

Lemma getNode_wf l g i :
  wf l g -> 0 <= i < nV g ->
  exists n, getNode l i = Some n /\ index n = i /\ n ∈ l.
Proof.
  intros [HnV Hperm] Hi. unfold getNode.
  destruct (Z.leb_spec 0 i), (Z.ltb_spec i (size l)); simpl; try lia.
  destruct (List.find _ l) as [n|] eqn:Hfind.
  - exists n. apply find_index_Some in Hfind. tauto.
  - exfalso. assert (Hin : i ∈ index <$> l).
    { rewrite Hperm, elem_of_seqZ. lia. }
    apply list_elem_of_fmap in Hin as (n & -> & Hn).
    apply list_elem_of_In in Hn.
    pose proof (find_none _ _ Hfind _ Hn) as Hf. simpl in Hf. lia.
Qed.


(** ** The in-place update against the map over the snapshot *)

Lemma sameKeys_refl l : sameKeys l l.
Proof.
  apply Forall2_same_length_lookup. split; [done|].
  intros i x y ? ?. by simplify_eq.
Qed.

Lemma sameKeys_find l1 l2 i :
  sameKeys l1 l2 ->
  prevRank <$> List.find (fun n => index n =? i) l1
  = prevRank <$> List.find (fun n => index n =? i) l2.
Proof.
  induction 1 as [|a b l1 l2 [Hi Hp] _ IH]; simpl; [done|].
  rewrite Hi. destruct (index b =? i); simpl; [by rewrite Hp | apply IH].
Qed.

Lemma sameKeys_getNode l1 l2 i :
  sameKeys l1 l2 -> prevRank <$> getNode l1 i = prevRank <$> getNode l2 i.
Proof.
  intros H. unfold getNode, size. rewrite (Forall2_length _ _ _ H).
  destruct (_ && _); [by apply sameKeys_find | done].
Qed.

Lemma getPageWeight_sameKeys l1 l2 g gWin gWout pi :
  sameKeys l1 l2 ->
  getPageWeight l1 g gWin gWout pi = getPageWeight l2 g gWin gWout pi.
Proof.
  intros H. unfold getPageWeight. apply foldlM_ext. intros a j _.
  destruct (isAdjacent g j (index pi)); [|done].
  pose proof (sameKeys_getNode _ _ j H) as Hj.
  destruct (getNode l1 j), (getNode l2 j); simpl in *; congruence.
Qed.

Lemma walk_local (f : Node F -> Node F) passed ahead :
  walk (fun _ pi => Some (f pi)) passed ahead = Some (passed ++ (f <$> ahead)).
Proof.
  revert passed. induction ahead as [|pi rest IH]; intros passed; simpl.
  - by rewrite app_nil_r.
  - rewrite IH. by rewrite <- app_assoc.
Qed.

Lemma storePrevRank_snapshot l : storePrevRank l = Some (snapshot l).
Proof. apply walk_local. Qed.

Lemma updateBody_sameKeys d N g gWin gWout l1 l2 pi :
  sameKeys l1 l2 ->
  updateBody d N g gWin gWout l1 pi = updateBody d N g gWin gWout l2 pi.
Proof.
  intros H. unfold updateBody.
  by rewrite (getPageWeight_sameKeys _ _ _ _ _ _ H).
Qed.

Lemma updateBody_keys d N g gWin gWout mem pi pi' :
  updateBody d N g gWin gWout mem pi = Some pi' ->
  index pi' = index pi /\ prevRank pi' = prevRank pi.
Proof.
  unfold updateBody. destruct (getPageWeight _ _ _ _ _); simpl; [|done].
  intros [= <-]. done.
Qed.

Lemma walk_updateBody d N g gWin gWout before passed ahead :
  sameKeys passed before ->
  walk (updateBody d N g gWin gWout) passed ahead
  = rest ← mapM (updateBody d N g gWin gWout (before ++ ahead)) ahead;
    Some (passed ++ rest).
Proof.
  revert before passed.
  induction ahead as [|pi rest IH]; intros before passed Hk; simpl.
  - by rewrite app_nil_r.
  - assert (Hmem : sameKeys (passed ++ pi :: rest) (before ++ pi :: rest)).
    { apply Forall2_app; [done | apply sameKeys_refl]. }
    rewrite (updateBody_sameKeys _ _ _ _ _ _ _ _ Hmem).
    destruct (updateBody d N g gWin gWout (before ++ pi :: rest) pi)
      as [pi'|] eqn:Hpi; simpl; [|done].
    apply updateBody_keys in Hpi.
    rewrite (IH (before ++ [pi])).
    + rewrite <- !app_assoc. simpl.
      destruct (mapM _ rest); simpl; [|done].
      by rewrite <- app_assoc.
    + apply Forall2_app; [done|]. repeat constructor; tauto.
Qed.

Lemma rankStep_refines d N g gWin gWout l :
  rankStep d N g gWin gWout l = rankStep_pure d N g gWin gWout l.
Proof.
  unfold rankStep, rankStep_pure. rewrite storePrevRank_snapshot. simpl.
  unfold updateRank. 
  change (walk _ [] (snapshot l))
    with (walk (updateBody d N g gWin gWout) [] (snapshot l)).
  rewrite (walk_updateBody d N g gWin gWout [] [] (snapshot l)) by constructor.
  simpl. by destruct (mapM _ _).
Qed.

(** ** Nodes by index *)

Lemma getNode_fmap (f : Node F -> Node F) l i :
  (forall n, index (f n) = index n) ->
  getNode (f <$> l) i = f <$> getNode l i.
Proof.
  intros Hf. unfold getNode, size. rewrite length_fmap.
  destruct (_ && _); [|done].
  induction l as [|n l IH]; simpl; [done|].
  rewrite Hf. destruct (index n =? i); [done | apply IH].
Qed.

Lemma wf_fmap (f : Node F -> Node F) l g :
  (forall n, index (f n) = index n) -> wf l g -> wf (f <$> l) g.
Proof.
  intros Hf [HnV Hperm]. unfold wf, size in *. rewrite length_fmap.
  split; [done|]. rewrite <- list_fmap_compose.
  rewrite (list_fmap_ext (index ∘ f) index l); [done|].
  intros ? n _. apply Hf.
Qed.

Lemma mapM_pure {A B} (f : A -> option B) (h : A -> B) (xs : list A) :
  (forall x, x ∈ xs -> f x = Some (h x)) -> mapM f xs = Some (h <$> xs).
Proof.
  induction xs as [|x xs IH]; intros Hfh; simpl; [done|].
  rewrite Hfh by left. simpl. rewrite IH; [done|].
  intros y Hy. apply Hfh. by right.
Qed.

(** ** The closed form of one iteration *)

Lemma getPageWeight_weightSum l g gWin gWout pi (prev : Z -> F) :
  (forall j, 0 <= j < nV g -> prevRank <$> getNode l j = Some (prev j)) ->
  getPageWeight l g gWin gWout pi
  = Some (weightSum prev g gWin gWout (index pi)).
Proof.
  intros Hprev. unfold getPageWeight, weightSum, sumF, inNeighbours.
  rewrite <- (foldl_filter_map (fun j => isAdjacent g j (index pi))
    (fun j => dmul (dmul (prev j) (edges gWout j (index pi)))
                   (edges gWin j (index pi))) dadd).
  apply foldlM_pure. intros a j Hj. apply elem_of_vertices in Hj.
  destruct (isAdjacent g j (index pi)); [|done].
  specialize (Hprev j Hj).
  destruct (getNode l j) as [pj|]; simpl in *; [|done].
  by injection Hprev as ->.
Qed.

(** One iteration on a well-formed list: every node keeps its place, its old
    rank moves to [prevRank] and its new rank is given by the formula. *)
Lemma rankStep_closed d N l g gWin gWout (prev : Z -> F) :
  (forall j, 0 <= j < nV g -> rankOf l j = Some (prev j)) ->
  rankStep d N g gWin gWout l
  = Some ((fun pi => set_rank
                       (newRank d N (weightSum prev g gWin gWout (index pi)))
                       (set_prevRank (rank pi) pi)) <$> l).
Proof.
  intros Hprev. rewrite rankStep_refines. unfold rankStep_pure. simpl.
  rewrite (mapM_pure _ (fun pi => set_rank
             (newRank d N (weightSum prev g gWin gWout (index pi))) pi)).
  - unfold snapshot. by rewrite <- list_fmap_compose.
  - intros pi _. rewrite (getPageWeight_weightSum _ _ _ _ _ prev); [done|].
    intros j Hj. unfold snapshot. rewrite getNode_fmap by done.
    rewrite <- (Hprev j Hj). unfold rankOf. by destruct (getNode l j).
Qed.

Lemma rankOf_total l g :
  wf l g -> exists prev : Z -> F,
    forall j, 0 <= j < nV g -> rankOf l j = Some (prev j).
Proof.
  intros Hwf.
  exists (fun j => match getNode l j with
                   | Some n => rank n
                   | None => of_int 0
                   end).
  intros j Hj. destruct (getNode_wf l g j Hwf Hj) as (n & Hn & _).
  unfold rankOf. by rewrite Hn.
Qed.

Lemma rankStep_rankOf d N l g gWin gWout (prev : Z -> F) l' i :
  wf l g ->
  (forall j, 0 <= j < nV g -> rankOf l j = Some (prev j)) ->
  rankStep d N g gWin gWout l = Some l' ->
  0 <= i < nV g ->
  rankOf l' i = Some (newRank d N (weightSum prev g gWin gWout i)).
Proof.
  intros Hwf Hprev Hstep Hi.
  rewrite (rankStep_closed d N l g gWin gWout prev Hprev) in Hstep.
  injection Hstep as <-. unfold rankOf. rewrite getNode_fmap by done.
  destruct (getNode_wf l g i Hwf Hi) as (n & -> & <- & _). done.
Qed.

Lemma rankStep_wf d N l g gWin gWout :
  wf l g -> exists l', rankStep d N g gWin gWout l = Some l' /\ wf l' g.
Proof.
  intros Hwf. destruct (rankOf_total l g Hwf) as [prev Hprev].
  rewrite (rankStep_closed d N l g gWin gWout prev Hprev).
  eexists. split; [done|]. by apply wf_fmap.
Qed.


(** ** The double loop of setGraphWin and setGraphWout *)

Lemma setGraphWin_setGraphW l g : setGraphWin l g = setGraphW calculateWin l g.
Proof. reflexivity. Qed.

Lemma setGraphWout_setGraphW l g :
  setGraphWout l g = setGraphW calculateWout l g.
Proof. reflexivity. Qed.

Lemma putW_nV W g gW pj pi : nV (putW W g gW pj pi) = nV gW.
Proof. unfold putW. destruct (_ && _); [apply GraphInsertEdge_nV | done]. Qed.

Lemma putW_other W g gW pj pi a b :
  (a, b) <> (pj, pi) -> edges (putW W g gW pj pi) a b = edges gW a b.
Proof.
  intros Hne. unfold putW. destruct (_ && _); [|done].
  by apply GraphInsertEdge_frame.
Qed.

Lemma putW_here W g gW pj pi :
  edges gW pj pi = of_int 0 ->
  edges (putW W g gW pj pi) pj pi
  = if isAdjacent g pj pi && negb (pj =? pi) then W pj pi else of_int 0.
Proof.
  intros H0. unfold putW.
  destruct (isAdjacent g pj pi); simpl; [|done].
  destruct (Z.eqb_spec pj pi); simpl; [done|].
  by apply (GraphInsertEdge_fresh gW (mkEdge pj pi (W pj pi))).
Qed.

(** One row of the double loop. *)
Lemma putW_row W g pj cols : forall init a b,
  NoDup cols ->
  (forall c, c ∈ cols -> edges init pj c = of_int 0) ->
  edges (foldl (fun gW pi => putW W g gW pj pi) init cols) a b
  = if (a =? pj) && bool_decide (b ∈ cols)
    then (if isAdjacent g a b && negb (a =? b) then W a b else of_int 0)
    else edges init a b.
Proof.
  induction cols as [|c cols IH]; intros init a b Hnd H0; simpl.
  - by rewrite andb_false_r.
  - apply NoDup_cons in Hnd as [Hc Hnd].
    rewrite IH; [|done|].
    2:{ intros c' Hc'. rewrite putW_other; [apply H0; by right|].
        intros [= ->]. done. }
    destruct (Z.eqb_spec a pj) as [->|Ha]; simpl.
    + destruct (decide (b = c)) as [->|Hb].
      * rewrite (bool_decide_eq_false_2 _ Hc).
        rewrite bool_decide_eq_true_2 by left.
        apply putW_here, H0. by left.
      * destruct (decide (b ∈ cols)) as [Hin|Hin].
        -- rewrite (bool_decide_eq_true_2 _ Hin).
           rewrite bool_decide_eq_true_2; [done | by right].
        -- rewrite (bool_decide_eq_false_2 _ Hin).
           rewrite bool_decide_eq_false_2.
           ++ apply putW_other. congruence.
           ++ rewrite elem_of_cons. tauto.
    + apply putW_other. congruence.
Qed.

Lemma putW_row_nV W g pj cols init :
  nV (foldl (fun gW pi => putW W g gW pj pi) init cols) = nV init.
Proof.
  revert init. induction cols as [|c cols IH]; intros init; simpl; [done|].
  rewrite IH. apply putW_nV.
Qed.

(** All rows. *)
Lemma putW_rows W g cols rows : forall init a b,
  NoDup cols -> NoDup rows ->
  (forall r c, r ∈ rows -> c ∈ cols -> edges init r c = of_int 0) ->
  edges (foldl (fun gW pj => foldl (fun gW pi => putW W g gW pj pi) gW cols)
               init rows) a b
  = if bool_decide (a ∈ rows) && bool_decide (b ∈ cols)
    then (if isAdjacent g a b && negb (a =? b) then W a b else of_int 0)
    else edges init a b.
Proof.
  intros init a b Hcols. revert init.
  induction rows as [|r rows IH]; intros init Hnd H0; simpl; [done|].
  apply NoDup_cons in Hnd as [Hr Hnd].
  rewrite IH; [|done|].
  2:{ intros r' c Hr' Hc. rewrite putW_row; [|done|].
      - destruct (Z.eqb_spec r' r) as [->|]; [done|]. simpl.
        apply H0; [by right | done].
      - intros c' Hc'. apply H0; [by left | done]. }
  rewrite putW_row; [|done|].
  2:{ intros c Hc. apply H0; [by left | done]. }
  destruct (decide (a = r)) as [->|Ha].
  - rewrite (bool_decide_eq_false_2 _ Hr). rewrite Z.eqb_refl. simpl.
    rewrite (bool_decide_eq_true_2 (r ∈ r :: rows)) by left. simpl.
    destruct (bool_decide (b ∈ cols)); [done|]. done.
  - destruct (Z.eqb_spec a r); [done|]. simpl.
    destruct (decide (a ∈ rows)) as [Hin|Hin].
    + rewrite (bool_decide_eq_true_2 _ Hin).
      rewrite (bool_decide_eq_true_2 (a ∈ r :: rows)); [done | by right].
    + rewrite (bool_decide_eq_false_2 _ Hin).
      rewrite (bool_decide_eq_false_2 (a ∈ r :: rows)); [done|].
      rewrite elem_of_cons. tauto.
Qed.

Lemma putW_rows_nV W g cols rows init :
  nV (foldl (fun gW pj => foldl (fun gW pi => putW W g gW pj pi) gW cols)
            init rows) = nV init.
Proof.
  revert init. induction rows as [|r rows IH]; intros init; simpl; [done|].
  rewrite IH. apply putW_row_nV.
Qed.

(** When [calc] yields [W j i] for the nodes of every pair of vertices, the
    double loop succeeds and leaves [W j i] on every edge [j -> i] off the
    diagonal and 0 everywhere else. *)
Lemma setGraphW_closed calc (W : Z -> Z -> F) l g :
  wf l g ->
  (forall pj pi nj ni, getNode l pj = Some nj -> getNode l pi = Some ni ->
     calc l g nj ni = Some (W pj pi)) ->
  exists gW, setGraphW calc l g = Some gW /\ nV gW = nV g /\
    forall a b, edges gW a b
      = if bool_decide (0 <= a < nV g) && bool_decide (0 <= b < nV g)
           && isAdjacent g a b && negb (a =? b)
        then W a b else of_int 0.
Proof.
  intros Hwf Hcalc.
  exists (foldl (fun gW pj => foldl (fun gW pi => putW W g gW pj pi) gW
                                    (vertices g))
                (GraphNew (nV g)) (vertices g)).
  split; [|split].
  - unfold setGraphW. apply foldlM_pure. intros gW pj Hpj.
    apply foldlM_pure. intros gW' pi Hpi. unfold putW.
    destruct (_ && _); [|done].
    apply elem_of_vertices in Hpj, Hpi.
    destruct (getNode_wf l g pj Hwf Hpj) as (nj & Hnj & _).
    destruct (getNode_wf l g pi Hwf Hpi) as (ni & Hni & _).
    rewrite Hnj, Hni. simpl. by rewrite (Hcalc pj pi nj ni Hnj Hni).
  - rewrite putW_rows_nV. apply GraphNew_nV.
  - intros a b. rewrite putW_rows.
    + rewrite GraphNew_edges.
      rewrite (bool_decide_ext (a ∈ vertices g) (0 <= a < nV g))
        by apply elem_of_vertices.
      rewrite (bool_decide_ext (b ∈ vertices g) (0 <= b < nV g))
        by apply elem_of_vertices.
      destruct (bool_decide (0 <= a < nV g)), (bool_decide (0 <= b < nV g));
        simpl; done.
    + apply NoDup_seqZ.
    + apply NoDup_seqZ.
    + intros. apply GraphNew_edges.
Qed.


(** ** The closed form of the weights *)

Lemma pjTotalIncomingLinks_closed l g pjRow (inDeg : Z -> F) :
  (forall k, 0 <= k < nV g -> inDegree <$> getNode l k = Some (inDeg k)) ->
  pjTotalIncomingLinks l g pjRow
  = Some (sumF (inDeg <$> outNeighbours g pjRow)).
Proof.
  intros Hdeg. unfold pjTotalIncomingLinks, sumF, outNeighbours.
  rewrite <- (foldl_filter_map (fun k => isAdjacent g pjRow k) inDeg dadd).
  apply foldlM_pure. intros a k Hk. apply elem_of_vertices in Hk.
  destruct (isAdjacent g pjRow k); [|done].
  specialize (Hdeg k Hk).
  destruct (getNode l k) as [n|]; simpl in *; [|done].
  by injection Hdeg as ->.
Qed.

Lemma pjTotalOutgoingLinks_closed l g pjRow (outDeg : Z -> F) :
  (forall k, 0 <= k < nV g -> outDegree <$> getNode l k = Some (outDeg k)) ->
  pjTotalOutgoingLinks l g pjRow
  = Some (sumF ((fun k => effOut (outDeg k)) <$> outNeighbours g pjRow)).
Proof.
  intros Hdeg. unfold pjTotalOutgoingLinks, sumF, outNeighbours.
  rewrite <- (foldl_filter_map (fun k => isAdjacent g pjRow k)
                (fun k => effOut (outDeg k)) dadd).
  apply foldlM_pure. intros a k Hk. apply elem_of_vertices in Hk.
  destruct (isAdjacent g pjRow k); [|done].
  specialize (Hdeg k Hk).
  destruct (getNode l k) as [n|]; simpl in *; [|done].
  injection Hdeg as <-. unfold effOut.
  by destruct (deqb (outDegree n) (of_int 0)).
Qed.

Lemma field_of_getNode {A} (fld : Node F -> A) (val : Z -> A) l g k n :
  (forall k, 0 <= k < nV g -> fld <$> getNode l k = Some (val k)) ->
  wf l g -> getNode l k = Some n -> fld n = val k.
Proof.
  intros Hfld [HnV _] Hn. pose proof (getNode_Some l k n Hn) as (_ & _ & Hk).
  rewrite <- HnV in Hk. specialize (Hfld k Hk). rewrite Hn in Hfld.
  simpl in Hfld. congruence.
Qed.

Lemma calculateWin_closed l g (inDeg : Z -> F) pj pi nj ni :
  wf l g ->
  (forall k, 0 <= k < nV g -> inDegree <$> getNode l k = Some (inDeg k)) ->
  getNode l pj = Some nj -> getNode l pi = Some ni ->
  calculateWin l g nj ni
  = Some (ddiv (inDeg pi) (sumF (inDeg <$> outNeighbours g pj))).
Proof.
  intros Hwf Hdeg Hnj Hni. unfold calculateWin.
  rewrite (pjTotalIncomingLinks_closed l g _ inDeg Hdeg). simpl.
  rewrite (field_of_getNode inDegree inDeg l g pi ni Hdeg Hwf Hni).
  by destruct (getNode_Some l pj nj Hnj) as (-> & _).
Qed.

Lemma calculateWout_closed l g (outDeg : Z -> F) pj pi nj ni :
  wf l g ->
  (forall k, 0 <= k < nV g -> outDegree <$> getNode l k = Some (outDeg k)) ->
  getNode l pj = Some nj -> getNode l pi = Some ni ->
  calculateWout l g nj ni
  = Some (ddiv (effOut (outDeg pi))
               (effOut (sumF ((fun k => effOut (outDeg k))
                                <$> outNeighbours g pj)))).
Proof.
  intros Hwf Hdeg Hnj Hni. unfold calculateWout.
  rewrite (pjTotalOutgoingLinks_closed l g _ outDeg Hdeg). simpl.
  rewrite (field_of_getNode outDegree outDeg l g pi ni Hdeg Hwf Hni).
  by destruct (getNode_Some l pj nj Hnj) as (-> & _).
Qed.

(** ** Initialisation *)

Lemma wf_initialise l g N : wf l g -> wf (initialiseRankAndDegree l g N) g.
Proof. by apply wf_fmap. Qed.

Lemma initialise_field {A} (fld : Node F -> A) (val : Z -> A) l g N :
  wf l g ->
  (forall n, fld (mkNode (url n) (index n) (ddiv (of_int 1) N) (prevRank n)
                         (incomingDegree g (index n))
                         (outgoingDegree g (index n))) = val (index n)) ->
  forall k, 0 <= k < nV g ->
    fld <$> getNode (initialiseRankAndDegree l g N) k = Some (val k).
Proof.
  intros Hwf Hfld k Hk. unfold initialiseRankAndDegree.
  rewrite getNode_fmap by done.
  destruct (getNode_wf l g k Hwf Hk) as (n & -> & <- & _). simpl.
  by rewrite Hfld.
Qed.

(** The matrix Win that the engine builds. *)
Lemma setGraphWin_closed l g N :
  wf l g ->
  exists gWin, setGraphWin (initialiseRankAndDegree l g N) g = Some gWin /\
    nV gWin = nV g /\
    forall a b, edges gWin a b
      = if bool_decide (0 <= a < nV g) && bool_decide (0 <= b < nV g)
           && isAdjacent g a b && negb (a =? b)
        then ddiv (incomingDegree g b)
                  (sumF (incomingDegree g <$> outNeighbours g a))
        else of_int 0.
Proof.
  intros Hwf. rewrite setGraphWin_setGraphW.
  apply (setGraphW_closed calculateWin
           (fun a b => ddiv (incomingDegree g b)
                            (sumF (incomingDegree g <$> outNeighbours g a)))).
  - by apply wf_initialise.
  - intros pj pi nj ni Hnj Hni.
    apply (calculateWin_closed _ g (incomingDegree g) pj pi); try done.
    + by apply wf_initialise.
    + by apply initialise_field.
Qed.

(** The matrix Wout that the engine builds. *)
Lemma setGraphWout_closed l g N :
  wf l g ->
  exists gWout, setGraphWout (initialiseRankAndDegree l g N) g = Some gWout /\
    nV gWout = nV g /\
    forall a b, edges gWout a b
      = if bool_decide (0 <= a < nV g) && bool_decide (0 <= b < nV g)
           && isAdjacent g a b && negb (a =? b)
        then ddiv (effOut (outgoingDegree g b))
                  (effOut (sumF ((fun k => effOut (outgoingDegree g k))
                                   <$> outNeighbours g a)))
        else of_int 0.
Proof.
  intros Hwf. rewrite setGraphWout_setGraphW.
  apply (setGraphW_closed calculateWout
           (fun a b => ddiv (effOut (outgoingDegree g b))
                            (effOut (sumF ((fun k => effOut (outgoingDegree g k))
                                             <$> outNeighbours g a))))).
  - by apply wf_initialise.
  - intros pj pi nj ni Hnj Hni.
    apply (calculateWout_closed _ g (outgoingDegree g) pj pi); try done.
    + by apply wf_initialise.
    + by apply initialise_field.
Qed.

(** The degrees count neighbours. *)
Lemma incomingDegree_count g i :
  incomingDegree g i = of_int (Z.of_nat (length (inNeighbours g i))).
Proof.
  unfold incomingDegree, inNeighbours. f_equal.
  generalize (vertices g). intros xs.
  assert (Hgen : forall z, foldl (fun degree urlB =>
             if isAdjacent g urlB i then degree + 1 else degree) z xs
           = z + Z.of_nat (length (List.filter (fun j => isAdjacent g j i) xs)));
    [|by rewrite Hgen].
  induction xs as [|x xs IH]; intros z; simpl; [lia|].
  rewrite IH. destruct (isAdjacent g x i); simpl; lia.
Qed.


(** ** The iteration loop *)

Lemma rankLoop_trace d N diffPR maxIterations g gWin gWout :
  forall fuel i diff l,
  wf l g -> maxIterations - i <= Z.of_nat fuel ->
  exists (n : nat) l',
    rankLoop fuel d N diffPR maxIterations g gWin gWout i diff l
      = Some (i + Z.of_nat n, l')
    /\ iterSteps d N g gWin gWout n l = Some l'
    /\ wf l' g
    /\ (n = 0%nat <-> (i <? maxIterations) && dgeb diff diffPR = false)
    /\ i + Z.of_nat n <= Z.max i maxIterations
    /\ (forall k lk, (0 < k < n)%nat ->
          iterSteps d N g gWin gWout k l = Some lk ->
          dgeb (calculateDiff lk) diffPR = true)
    /\ ((0 < n)%nat ->
          i + Z.of_nat n = maxIterations
          \/ dgeb (calculateDiff l') diffPR = false).
Proof.
  induction fuel as [|fuel IH]; intros i diff l Hwf Hfuel.
  - exists 0%nat, l. simpl.
    destruct (Z.ltb_spec i maxIterations); [lia|]. simpl.
    rewrite Z.add_0_r. split_and!; try done; lia.
  - simpl. destruct ((i <? maxIterations) && dgeb diff diffPR) eqn:Hcond.
    + apply andb_true_iff in Hcond as [Hi Hd]. apply Z.ltb_lt in Hi.
      destruct (rankStep_wf d N l g gWin gWout Hwf) as (l1 & Hstep & Hwf1).
      rewrite Hstep. simpl.
      destruct (IH (i + 1) (calculateDiff l1) l1 Hwf1 ltac:(lia))
        as (n1 & l' & Hloop & Hit & Hwf' & Hzero & Hcap & Hmid & Hstop).
      exists (S n1), l'. cbn [iterSteps]. rewrite Hstep. simpl mbind.
      replace (i + Z.of_nat (S n1)) with (i + 1 + Z.of_nat n1) by lia.
      split_and!.
      * done.
      * done.
      * done.
      * split; done.
      * lia.
      * intros k lk Hk. destruct k as [|k1]; [lia|]. simpl.
        rewrite Hstep. simpl. destruct k1 as [|k2].
        -- simpl. intros [= <-].
           destruct ((i + 1 <? maxIterations) && dgeb (calculateDiff l1) diffPR)
             eqn:Hc1.
           ++ by apply andb_true_iff in Hc1 as [_ ?].
           ++ destruct Hzero as [_ Hz]. specialize (Hz eq_refl). lia.
        -- apply Hmid. lia.
      * intros _. destruct n1 as [|n2].
        -- simpl in Hit. injection Hit as <-.
           destruct Hzero as [Hz _]. specialize (Hz eq_refl).
           apply andb_false_iff in Hz as [Hz|Hz]; [|by right].
           apply Z.ltb_ge in Hz. left. lia.
        -- apply Hstop. lia.
    + exists 0%nat, l. simpl. rewrite Z.add_0_r.
      split_and!; try done; lia.
Qed.

Lemma calculatePageRank_trace l g d diffPR maxIterations :
  wf l g ->
  exists gWin gWout (n : nat) l',
    setGraphWin (initialiseRankAndDegree l g (of_int (nV g))) g = Some gWin
    /\ setGraphWout (initialiseRankAndDegree l g (of_int (nV g))) g
         = Some gWout
    /\ calculatePageRank l g d diffPR maxIterations
         = Some (1 + Z.of_nat n, l')
    /\ iterSteps d (of_int (nV g)) g gWin gWout n
         (initialiseRankAndDegree l g (of_int (nV g))) = Some l'
    /\ (n = 0%nat <-> (1 <? maxIterations) && dgeb diffPR diffPR = false)
    /\ 1 + Z.of_nat n <= Z.max 1 maxIterations
    /\ (forall k lk, (0 < k < n)%nat ->
          iterSteps d (of_int (nV g)) g gWin gWout k
            (initialiseRankAndDegree l g (of_int (nV g))) = Some lk ->
          dgeb (calculateDiff lk) diffPR = true)
    /\ ((0 < n)%nat ->
          1 + Z.of_nat n = maxIterations
          \/ dgeb (calculateDiff l') diffPR = false).
Proof.
  intros Hwf.
  destruct (setGraphWin_closed l g (of_int (nV g)) Hwf) as (gWin & HWin & _).
  destruct (setGraphWout_closed l g (of_int (nV g)) Hwf) as (gWout & HWout & _).
  destruct (rankLoop_trace d (of_int (nV g)) diffPR maxIterations g gWin gWout
              (Z.to_nat maxIterations) 1 diffPR
              (initialiseRankAndDegree l g (of_int (nV g)))
              (wf_initialise l g _ Hwf) ltac:(lia))
    as (n & l' & Hloop & Hit & _ & Hzero & Hcap & Hmid & Hstop).
  exists gWin, gWout, n, l'. unfold calculatePageRank.
  rewrite HWin, HWout. simpl. done.
Qed.


(** ** No entry on the diagonal *)

Lemma foldlM_invariant {A B} (P : B -> Prop) (f : B -> A -> option B) xs :
  forall b r,
  P b ->
  (forall a x a', x ∈ xs -> P a -> f a x = Some a' -> P a') ->
  foldlM f b xs = Some r -> P r.
Proof.
  induction xs as [|x xs IH]; intros b r Hb Hstep; simpl.
  - by intros [= <-].
  - destruct (f b x) as [b'|] eqn:Hfx; [|done].
    apply IH.
    + apply (Hstep b x b'); [by left | done | done].
    + intros a y a' Hy. apply Hstep. by right.
Qed.

Lemma setGraphW_diag calc l g gW i :
  setGraphW calc l g = Some gW -> edges gW i i = of_int 0.
Proof.
  unfold setGraphW.
  apply (foldlM_invariant (fun gW => edges gW i i = of_int 0)).
  - apply GraphNew_edges.
  - intros gW1 pj gW2 _ H1.
    apply (foldlM_invariant (fun gW => edges gW i i = of_int 0)); [done|].
    intros gW3 pi gW4 _ H3.
    destruct (isAdjacent g pj pi && negb (pj =? pi)) eqn:Hc;
      [|by intros [= <-]].
    apply andb_true_iff in Hc as [_ Hne].
    apply negb_true_iff, Z.eqb_neq in Hne.
    destruct (getNode l pj) as [nj|]; simpl; [|done].
    destruct (getNode l pi) as [ni|]; simpl; [|done].
    destruct (calc l g nj ni) as [W|]; simpl; [|done].
    intros [= <-]. rewrite GraphInsertEdge_frame; [done|].
    simpl. congruence.
Qed.

Lemma insertEdgesLoop_foldl g l words curr :
  insertEdgesLoop g l words curr
  = foldl GraphInsertEdge g (insertedEdges l words curr).
Proof.
  revert g. induction words as [|word rest IH]; intros g; simpl; [done|].
  destruct (String.eqb word "#end"); [done|].
  destruct (_ && _); simpl; apply IH.
Qed.

Lemma insertEdges_loop g l fp curr :
  insertEdges g l fp curr = insertEdgesLoop g l (linkWords fp) curr.
Proof. reflexivity. Qed.

Lemma insertEdges_foldl g l fp curr :
  insertEdges g l fp curr
  = foldl GraphInsertEdge g (insertedEdges l (linkWords fp) curr).
Proof. rewrite insertEdges_loop. apply insertEdgesLoop_foldl. Qed.

Lemma insertedEdges_proper l words curr e :
  e ∈ insertedEdges l words curr ->
  v e = index curr /\ w e <> index curr /\ 0 <= w e
  /\ weight e = of_int 1.
Proof.
  induction words as [|word rest IH]; simpl; [by intros ?%elem_of_nil|].
  destruct (String.eqb word "#end"); [by intros ?%elem_of_nil|].
  destruct (Z.leb_spec 0 (getUrlIndex l word)); simpl; [|done].
  destruct (Z.eqb_spec (getUrlIndex l word) (index curr)); simpl; [done|].
  intros [->|He]%elem_of_cons; [done | by apply IH].
Qed.

Lemma foldl_insert_diag (es : list (Edge F)) g i :
  (forall e, e ∈ es -> v e <> w e) ->
  edges g i i = of_int 0 ->
  edges (foldl GraphInsertEdge g es) i i = of_int 0.
Proof.
  revert g. induction es as [|e es IH]; intros g Hes H0; simpl; [done|].
  apply IH.
  - intros e' He'. apply Hes. by right.
  - rewrite GraphInsertEdge_frame; [done|].
    intros [= Hv Hw]. apply (Hes e); [by left | congruence].
Qed.

Lemma insertEdges_diag g l fp curr i :
  edges g i i = of_int 0 ->
  edges (insertEdges g l fp curr) i i = of_int 0.
Proof.
  rewrite insertEdges_foldl. apply foldl_insert_diag.
  intros e He. apply insertedEdges_proper in He. destruct He as (-> & ? & _).
  congruence.
Qed.

Lemma createGraph_diag fs l g i :
  createGraph fs l = Some g -> edges g i i = of_int 0.
Proof.
  unfold createGraph.
  apply (foldlM_invariant (fun g => edges g i i = of_int 0)).
  - apply GraphNew_edges.
  - intros g1 curr g2 _ H1.
    destruct (fs _) as [fp|]; simpl; [|done].
    intros [= <-]. by apply insertEdges_diag.
Qed.

Lemma insertEdgesLoop_nV g l words curr :
  nV (insertEdgesLoop g l words curr) = nV g.
Proof.
  revert g. induction words as [|word rest IH]; intros g; simpl; [done|].
  destruct (String.eqb word "#end"); [done|]. rewrite IH.
  destruct (_ && _); [apply GraphInsertEdge_nV | done].
Qed.

Lemma insertEdges_nV g l fp curr :
  nV (insertEdges g l fp curr) = nV g.
Proof. rewrite insertEdges_loop. apply insertEdgesLoop_nV. Qed.

Lemma createGraph_nV fs l g : createGraph fs l = Some g -> nV g = size l.
Proof.
  unfold createGraph.
  apply (foldlM_invariant (fun g => nV g = size l)).
  - apply GraphNew_nV.
  - intros g1 curr g2 _ H1.
    destruct (fs _) as [fp|]; simpl; [|done].
    intros [= <-]. by rewrite insertEdges_nV.
Qed.


Lemma outgoingDegree_count g j :
  outgoingDegree g j
  = Nat.iter (length (outNeighbours g j)) (fun x => dadd x (of_int 1))
             (of_int 0).
Proof.
  unfold outgoingDegree, outNeighbours. generalize (of_int 0).
  induction (vertices g) as [|x xs IH]; intros z; simpl; [done|].
  destruct (isAdjacent g j x); simpl; rewrite IH; [|done].
  symmetry.
  apply (Nat.iter_succ_r _ (fun y => dadd y (of_int 1)) z).
Qed.

(** ** New ranks depend on the old ranks only *)

Lemma snapshot_sameKeys (l1 l2 : list (Node F)) :
  indices l1 = indices l2 -> ranks l1 = ranks l2 ->
  sameKeys (snapshot l1) (snapshot l2).
Proof.
  unfold indices, ranks. revert l2. induction l1 as [|a l1 IH]; intros [|b l2]; simpl; try done.
  - intros _ _. constructor.
  - intros [= Hi Hil] [= Hr Hrl]. constructor; [done|]. by apply IH.
Qed.

Lemma updateBody_rank d N g gWin gWout mem a b :
  index a = index b ->
  rank <$> updateBody d N g gWin gWout mem a
  = rank <$> updateBody d N g gWin gWout mem b.
Proof.
  intros Hi. unfold updateBody, getPageWeight. rewrite Hi.
  by destruct (foldlM _ _ _).
Qed.

Lemma mapM_updateBody_rank d N g gWin gWout mem1 mem2 l1 l2 :
  sameKeys mem1 mem2 -> sameKeys l1 l2 ->
  ranks <$> mapM (updateBody d N g gWin gWout mem1) l1
  = ranks <$> mapM (updateBody d N g gWin gWout mem2) l2.
Proof.
  intros Hmem. induction 1 as [|a b l1 l2 [Hi Hp] _ IH]; simpl; [done|].
  rewrite (updateBody_sameKeys d N g gWin gWout mem1 mem2 a Hmem).
  pose proof (updateBody_rank d N g gWin gWout mem2 a b Hi) as Hab.
  destruct (updateBody d N g gWin gWout mem2 a) as [a'|],
           (updateBody d N g gWin gWout mem2 b) as [b'|];
    simpl in *; try done.
  destruct (mapM _ l1) as [r1|], (mapM _ l2) as [r2|]; simpl in *;
    try done.
  injection Hab as Hab. injection IH as IH.
  unfold ranks in *. simpl. by rewrite Hab, IH.
Qed.

Lemma rankStep_pure_rank d N g gWin gWout (l1 l2 : list (Node F)) :
  indices l1 = indices l2 -> ranks l1 = ranks l2 ->
  ranks <$> rankStep_pure d N g gWin gWout l1
  = ranks <$> rankStep_pure d N g gWin gWout l2.
Proof.
  intros Hi Hr. unfold rankStep_pure. simpl.
  apply (mapM_updateBody_rank d N g gWin gWout);
    by apply snapshot_sameKeys.
Qed.

(** ** The loader builds well-formed lists *)

Lemma ListAppend_indices (words : list string) : forall l0 : list (Node F),
  indices (foldl ListAppend l0 words)
  = indices l0 ++ seqZ (size l0) (Z.of_nat (length words)).
Proof.
  unfold indices. induction words as [|word rest IH]; intros l0.
  - simpl. by rewrite app_nil_r.
  - cbn [foldl]. rewrite IH. unfold ListAppend at 1 2.
    rewrite fmap_app, <- app_assoc. f_equal. cbn [fmap list_fmap index app].
    unfold size. rewrite length_app. cbn [length].
    rewrite (seqZ_cons (Z.of_nat (length l0))) by (simpl; lia).
    f_equal. f_equal; simpl; lia.
Qed.

Lemma readCollectionFile_wf fs l g :
  readCollectionFile fs = Some l -> createGraph fs l = Some g ->
  wf l g /\ 0 < nV g.
Proof.
  unfold readCollectionFile. destruct (fs "collection.txt"%string)
    as [fp|]; simpl; [|done].
  generalize (fscanf_s fp). intros words.
  intros Hl Hg. assert (Hfold : foldl ListAppend [] words = l /\ l <> []).
  { destruct (foldl ListAppend [] words); [done|]. by injection Hl as <-. }
  destruct Hfold as [<- Hne]. apply createGraph_nV in Hg.
  pose proof (ListAppend_indices words []) as Hidx. simpl in Hidx.
  assert (Hsize : size (foldl ListAppend [] words) = Z.of_nat (length words)).
  { unfold size. f_equal. rewrite <- (length_fmap index).
    fold (indices (foldl ListAppend [] words)). rewrite Hidx.
    rewrite length_seqZ. lia. }
  split; [split|].
  - done.
  - fold (indices (foldl ListAppend [] words)). by rewrite Hidx, Hsize.
  - rewrite Hg. unfold size.
    destruct (foldl ListAppend [] words); [done | simpl; lia].
Qed.

Lemma main_returns fs l g d diffPR maxIterations :
  readCollectionFile fs = Some l -> createGraph fs l = Some g ->
  main fs d diffPR maxIterations
  = snd <$> calculatePageRank l g d diffPR maxIterations.
Proof. intros Hl Hg. unfold main. rewrite Hl. simpl. by rewrite Hg. Qed.

(** * The claims that hold for every arithmetic *)

(** C3.  On a well-formed list the engine builds Wout, and for every edge
    [j -> i] with [j <> i] the entry [Wout[j][i]] is
    [effOut (outDegree i) / effOut (sum over the out-neighbours k of j of
    effOut (outDegree k))], where [outDegree] is outgoingDegree on the graph,
    1 added up once per out-neighbour, and [effOut] replaces 0 by 0.5: in
    the numerator, in each term of the sum and on the sum as a whole. *)
Theorem Wout_formula l g :
  wf l g ->
  exists gWout,
    setGraphWout (initialiseRankAndDegree l g (of_int (nV g))) g = Some gWout
    /\ (forall j i, 0 <= j < nV g -> 0 <= i < nV g ->
          isAdjacent g j i = true -> j <> i ->
          edges gWout j i
          = ddiv (effOut (outgoingDegree g i))
                 (effOut (sumF ((fun k => effOut (outgoingDegree g k))
                                  <$> outNeighbours g j))))
    /\ (forall k, outgoingDegree g k
                  = Nat.iter (length (outNeighbours g k))
                             (fun x => dadd x (of_int 1)) (of_int 0)).
Proof.
  intros Hwf.
  destruct (setGraphWout_closed l g (of_int (nV g)) Hwf)
    as (gWout & HWout & _ & Hedges).
  exists gWout. split_and!; [done | | apply outgoingDegree_count].
  intros j i Hj Hi Hadj Hne.
  rewrite Hedges, Hadj. rewrite !bool_decide_eq_true_2 by done.
  apply Z.eqb_neq in Hne. by rewrite Hne.
Qed.

(** C4.  On a well-formed list the engine builds Win, and for every edge
    [j -> i] with [j <> i] the entry [Win[j][i]] is
    [inDegree i / (sum over the out-neighbours k of j of inDegree k)], where
    [inDegree] is incomingDegree on the graph, the number of in-neighbours.
    Win and Wout are built once, from the graph and the degrees, before the
    loop: every pass of every run is a rankStep with these two matrices. *)
Theorem Win_formula l g :
  wf l g ->
  exists gWin gWout,
    setGraphWin (initialiseRankAndDegree l g (of_int (nV g))) g = Some gWin
    /\ setGraphWout (initialiseRankAndDegree l g (of_int (nV g))) g
         = Some gWout
    /\ (forall j i, 0 <= j < nV g -> 0 <= i < nV g ->
          isAdjacent g j i = true -> j <> i ->
          edges gWin j i
          = ddiv (incomingDegree g i)
                 (sumF (incomingDegree g <$> outNeighbours g j)))
    /\ (forall k, incomingDegree g k
                  = of_int (Z.of_nat (length (inNeighbours g k))))
    /\ (forall d diffPR maxIterations, exists (n : nat) l',
          calculatePageRank l g d diffPR maxIterations
            = Some (1 + Z.of_nat n, l')
          /\ iterSteps d (of_int (nV g)) g gWin gWout n
               (initialiseRankAndDegree l g (of_int (nV g))) = Some l').
Proof.
  intros Hwf.
  destruct (setGraphWin_closed l g (of_int (nV g)) Hwf)
    as (gWin & HWin & _ & Hedges).
  destruct (setGraphWout_closed l g (of_int (nV g)) Hwf)
    as (gWout & HWout & _).
  exists gWin, gWout. split_and!; try done.
  - intros j i Hj Hi Hadj Hne.
    rewrite Hedges, Hadj. rewrite !bool_decide_eq_true_2 by done.
    apply Z.eqb_neq in Hne. by rewrite Hne.
  - apply incomingDegree_count.
  - intros d diffPR maxIterations.
    destruct (calculatePageRank_trace l g d diffPR maxIterations Hwf)
      as (gWin' & gWout' & n & l' & HWin' & HWout' & Hrun & Hit & _).
    exists n, l'. split; [done|]. congruence.
Qed.

(** C6.  One iteration first copies every rank into prevRank and then
    updates the ranks in place, on that snapshot; the in-place loop, which
    reads the list as it stands after the updates already made, gives the
    same result as the map over the snapshot, in which every new rank is
    computed from the snapshot alone.  So the new ranks are a function of
    the old indices and ranks. *)
Theorem rankStep_snapshot d N g gWin gWout l :
  storePrevRank l = Some (snapshot l)
  /\ rankStep d N g gWin gWout l = updateRank d N g gWin gWout (snapshot l)
  /\ rankStep d N g gWin gWout l = rankStep_pure d N g gWin gWout l
  /\ forall l2 : list (Node F),
       indices l = indices l2 -> ranks l = ranks l2 ->
       ranks <$> rankStep d N g gWin gWout l
       = ranks <$> rankStep d N g gWin gWout l2.
Proof.
  split_and!.
  - apply storePrevRank_snapshot.
  - unfold rankStep. by rewrite storePrevRank_snapshot.
  - apply rankStep_refines.
  - intros l2 Hi Hr. rewrite !rankStep_refines.
    by apply rankStep_pure_rank.
Qed.

(** C10.  The graph that createGraph loads has no entry on the diagonal, and
    neither have the matrices Win and Wout built from it, whatever the list:
    insertEdges hands GraphInsertEdge only edges from the current page to
    another index, whatever words its loop reads, and the double loop of
    setGraphWin and setGraphWout skips [pj == pi].  The engine only reads
    the three graphs. *)
Theorem no_self_loops fs l g :
  createGraph fs l = Some g ->
  (forall i, edges g i i = of_int 0)
  /\ (forall l' gWin gWout,
        setGraphWin l' g = Some gWin -> setGraphWout l' g = Some gWout ->
        forall i, edges gWin i i = of_int 0 /\ edges gWout i i = of_int 0)
  /\ (forall g0 words curr,
        insertEdgesLoop g0 l words curr
        = foldl GraphInsertEdge g0 (insertedEdges l words curr)
        /\ forall e, e ∈ insertedEdges l words curr ->
             v e = index curr /\ w e <> v e)
  /\ (forall g0 fp curr,
        insertEdges g0 l fp curr
        = insertEdgesLoop g0 l (linkWords fp) curr).
Proof.
  intros Hload. split_and!.
  - intros i. by apply (createGraph_diag fs l).
  - intros l' gWin gWout HWin HWout i. split.
    + by apply (setGraphW_diag calculateWin l' g).
    + by apply (setGraphW_diag calculateWout l' g).
  - intros g0 words curr. split; [apply insertEdgesLoop_foldl|].
    intros e He. apply insertedEdges_proper in He as (Hv & Hw & _).
    split; [done | congruence].
  - intros g0 fp curr. apply insertEdges_loop.
Qed.


End EngineFacts.

(** * Exact arithmetic *)

Section Rational.

Context {G : GraphADT Q}.
Implicit Types (l : list (Node Q)) (g : Graph Q).

(** ** The operations on [Q] *)


Lemma dgeb_Q_true (x y : Q) : dgeb x y = true <-> (y <= x)%Q.
Proof. apply Qle_bool_iff. Qed.

Lemma dgeb_Q_false (x y : Q) : dgeb x y = false <-> (x < y)%Q.
Proof.
  rewrite <- not_true_iff_false, dgeb_Q_true. split.
  - apply Qnot_le_lt.
  - apply Qlt_not_le.
Qed.

(** ** Sums of rationals *)

Lemma foldl_Qplus_shift (xs : list Q) (a : Q) :
  (foldl Qplus a xs == a + foldl Qplus 0 xs)%Q.
Proof.
  revert a. induction xs as [|x xs IH]; intros a; simpl.
  - ring.
  - rewrite (IH (a + x)%Q), (IH (0 + x)%Q). ring.
Qed.

Lemma sumF_cons (x : Q) (xs : list Q) : (sumF (x :: xs) == x + sumF xs)%Q.
Proof.
  unfold sumF. q_ops. simpl. rewrite foldl_Qplus_shift.
  change (inject_Z 0) with 0%Q. ring.
Qed.

Lemma sumF_nonneg (xs : list Q) :
  (forall x, x ∈ xs -> (0 <= x)%Q) -> (0 <= sumF xs)%Q.
Proof.
  induction xs as [|x xs IH]; intros Hxs.
  - apply Qle_refl.
  - rewrite sumF_cons.
    replace 0%Q with (0 + 0)%Q by reflexivity.
    apply Qplus_le_compat; [apply Hxs; by left|].
    apply IH. intros y Hy. apply Hxs. by right.
Qed.

Lemma sumF_elem (xs : list Q) (y : Q) :
  (forall x, x ∈ xs -> (0 <= x)%Q) -> y ∈ xs -> (y <= sumF xs)%Q.
Proof.
  induction xs as [|x xs IH]; intros Hxs Hy.
  - by apply elem_of_nil in Hy.
  - rewrite sumF_cons. apply elem_of_cons in Hy as [->|Hy].
    + rewrite <- (Qplus_0_r x) at 1. apply Qplus_le_compat; [apply Qle_refl|].
      apply sumF_nonneg. intros z Hz. apply Hxs. by right.
    + rewrite <- (Qplus_0_l y). apply Qplus_le_compat; [apply Hxs; by left|].
      apply IH; [|done]. intros z Hz. apply Hxs. by right.
Qed.

Lemma sumF_replicate (n : nat) (x : Q) :
  (sumF (replicate n x) == inject_Z (Z.of_nat n) * x)%Q.
Proof.
  induction n as [|n IH].
  - unfold sumF. q_ops. simpl. change (inject_Z 0) with 0%Q. ring.
  - change (replicate (S n) x) with (x :: replicate n x).
    rewrite sumF_cons, IH, Nat2Z.inj_succ. unfold Z.succ.
    rewrite inject_Z_plus. ring.
Qed.

Lemma foldl_nonneg {A} (t : A -> Q) (xs : list A) (a : Q) :
  (forall x, (0 <= t x)%Q) -> (0 <= a)%Q ->
  (0 <= foldl (fun acc x => acc + t x) a xs)%Q.
Proof.
  intros Ht. revert a. induction xs as [|x xs IH]; intros a Ha; simpl.
  - done.
  - apply IH. replace 0%Q with (0 + 0)%Q by reflexivity.
    by apply Qplus_le_compat.
Qed.

Lemma calculateDiff_nonneg l : (0 <= calculateDiff l)%Q.
Proof.
  unfold calculateDiff. q_ops.
  apply (foldl_nonneg (fun pi => Qabs (rank pi - prevRank pi))).
  - intros pi. apply Qabs_nonneg.
  - apply Qle_refl.
Qed.

Lemma incomingDegree_Q g i :
  incomingDegree g i = inject_Z (Z.of_nat (length (inNeighbours g i))).
Proof. exact (incomingDegree_count g i). Qed.

Lemma iter_succ_Q (n : nat) (a : Q) :
  (Nat.iter n (fun x => x + inject_Z 1) a == a + inject_Z (Z.of_nat n))%Q.
Proof.
  induction n as [|n IH].
  - simpl. change (inject_Z 0) with 0%Q. ring.
  - rewrite Nat2Z.inj_succ. unfold Z.succ. rewrite inject_Z_plus.
    change (Nat.iter (S n) (fun x => x + inject_Z 1) a)%Q
      with (Nat.iter n (fun x => x + inject_Z 1) a + inject_Z 1)%Q.
    rewrite IH. ring.
Qed.

Lemma outgoingDegree_Q g j :
  (outgoingDegree g j == inject_Z (Z.of_nat (length (outNeighbours g j))))%Q.
Proof.
  rewrite (outgoingDegree_count g j). q_ops. rewrite iter_succ_Q.
  change (inject_Z 0) with 0%Q. ring.
Qed.

Lemma sumF_Qeq (f h : Z -> Q) (xs : list Z) :
  (forall x, x ∈ xs -> (f x == h x)%Q) ->
  (sumF (f <$> xs) == sumF (h <$> xs))%Q.
Proof.
  induction xs as [|x xs IH]; intros Hfh; [reflexivity|].
  rewrite !fmap_cons, !sumF_cons. rewrite (Hfh x) by left.
  rewrite IH; [reflexivity|]. intros y Hy. apply Hfh. by right.
Qed.

Lemma effOut_Qeq (x y : Q) : (x == y)%Q -> (effOut x == effOut y)%Q.
Proof.
  intros Hxy. unfold effOut. q_ops.
  destruct (Qeq_bool x (inject_Z 0)) eqn:Hx,
           (Qeq_bool y (inject_Z 0)) eqn:Hy; try done.
  - apply Qeq_bool_iff in Hx. apply Qeq_bool_neq in Hy.
    destruct Hy. by rewrite <- Hxy.
  - apply Qeq_bool_iff in Hy. apply Qeq_bool_neq in Hx.
    destruct Hx. by rewrite Hxy.
Qed.

Lemma incomingDegree_nonneg g i : (0 <= incomingDegree g i)%Q.
Proof.
  rewrite incomingDegree_Q. change 0%Q with (inject_Z 0).
  rewrite <- Zle_Qle. lia.
Qed.

Lemma elem_of_outNeighbours g j k :
  k ∈ outNeighbours g j <-> 0 <= k < nV g /\ isAdjacent g j k = true.
Proof.
  unfold outNeighbours. rewrite list_elem_of_In, filter_In.
  rewrite <- list_elem_of_In, elem_of_vertices. done.
Qed.

Lemma elem_of_inNeighbours g i j :
  j ∈ inNeighbours g i <-> 0 <= j < nV g /\ isAdjacent g j i = true.
Proof.
  unfold inNeighbours. rewrite list_elem_of_In, filter_In.
  rewrite <- list_elem_of_In, elem_of_vertices. done.
Qed.

Lemma incomingDegree_edge g j i :
  0 <= j < nV g -> isAdjacent g j i = true -> (1 <= incomingDegree g i)%Q.
Proof.
  intros Hj Hadj. rewrite incomingDegree_Q. change 1%Q with (inject_Z 1).
  rewrite <- Zle_Qle.
  assert (Hin : j ∈ inNeighbours g i) by by apply elem_of_inNeighbours.
  destruct (inNeighbours g i); [by apply elem_of_nil in Hin | simpl; lia].
Qed.

(** * The claims over exact arithmetic *)

(** C1.  One iteration on a well-formed list sets the rank of every node
    [i] to [(1 - d) / N + d * weight i], where [N] is the node count,
    [weight i] is the sum over the in-neighbours [j] of [i] of
    [prev j * Wout[j][i] * Win[j][i]] and [prev j] is the rank of node [j]
    before the iteration.  A node without in-neighbours has weight 0 and
    receives [(1 - d) / N]. *)
Theorem rank_update_formula l g gWin gWout (d : Q) (prev : Z -> Q) :
  wf l g ->
  (forall j, 0 <= j < nV g -> rankOf l j = Some (prev j)) ->
  exists l',
    rankStep d (of_int (nV g)) g gWin gWout l = Some l'
    /\ forall i, 0 <= i < nV g ->
         exists r, rankOf l' i = Some r
           /\ r = ((1 - d) / inject_Z (nV g)
                   + d * weightSum prev g gWin gWout i)%Q
           /\ (inNeighbours g i = [] ->
               weightSum prev g gWin gWout i = 0%Q
               /\ (r == (1 - d) / inject_Z (nV g))%Q).
Proof.
  intros Hwf Hprev.
  destruct (rankStep_wf d (of_int (nV g)) l g gWin gWout Hwf)
    as (l' & Hstep & _).
  exists l'. split; [done|]. intros i Hi.
  exists (newRank d (of_int (nV g)) (weightSum prev g gWin gWout i)).
  split_and!.
  - by apply (rankStep_rankOf d (of_int (nV g)) l g gWin gWout prev).
  - reflexivity.
  - intros Hnone. unfold weightSum, newRank. rewrite Hnone. simpl.
    split; [reflexivity|]. unfold sumF. q_ops. simpl.
    change (inject_Z 0) with 0%Q. change (inject_Z 1) with 1%Q.
    rewrite Qmult_0_r, Qplus_0_r. reflexivity.
Qed.


(** C7.  Initialisation gives every node the rank [1 / N] and, as its
    degrees, the counts of the graph: the number of edges that end in the
    node and the number of edges that start from it, whatever the node held
    before.  The weight matrices are built afterwards from the list that
    carries these counts: on every edge [j -> i] with [j <> i] the entry of
    Win is the in-count of [i] over the sum of the in-counts of the
    out-neighbours of [j], the entry of Wout is the same with effOut of the
    out-counts, and every run iterates with these two matrices from the
    initialised list.  On a graph with [N >= 1] nodes the initial ranks add
    up to 1. *)
Theorem initial_ranks l g :
  wf l g ->
  (forall pi, pi ∈ initialiseRankAndDegree l g (of_int (nV g)) ->
     rank pi = (1 / inject_Z (nV g))%Q
     /\ inDegree pi = inject_Z (inCount g (index pi))
     /\ (outDegree pi == inject_Z (outCount g (index pi)))%Q)
  /\ (exists gWin gWout,
        setGraphWin (initialiseRankAndDegree l g (of_int (nV g))) g
          = Some gWin
        /\ setGraphWout (initialiseRankAndDegree l g (of_int (nV g))) g
             = Some gWout
        /\ (forall j i, 0 <= j < nV g -> 0 <= i < nV g ->
              isAdjacent g j i = true -> j <> i ->
              (edges gWin j i
               == inject_Z (inCount g i)
                  / sumF ((fun k => inject_Z (inCount g k))
                            <$> outNeighbours g j))%Q
              /\ (edges gWout j i
                  == effOut (inject_Z (outCount g i))
                     / effOut (sumF ((fun k => effOut (inject_Z (outCount g k)))
                                       <$> outNeighbours g j)))%Q)
        /\ (forall d diffPR maxIterations, exists (n : nat) l',
              calculatePageRank l g d diffPR maxIterations
                = Some (1 + Z.of_nat n, l')
              /\ iterSteps d (of_int (nV g)) g gWin gWout n
                   (initialiseRankAndDegree l g (of_int (nV g))) = Some l'))
  /\ (0 < nV g ->
      (sumF (ranks (initialiseRankAndDegree l g (of_int (nV g)))) == 1)%Q).
Proof.
  intros Hwf. split_and!.
  - intros pi Hpi. unfold initialiseRankAndDegree in Hpi.
    apply list_elem_of_fmap in Hpi as (pi0 & -> & _). simpl.
    split_and!.
    + reflexivity.
    + apply incomingDegree_Q.
    + apply outgoingDegree_Q.
  - destruct (setGraphWin_closed l g (of_int (nV g)) Hwf)
      as (gWin & HWin & _ & HeWin).
    destruct (setGraphWout_closed l g (of_int (nV g)) Hwf)
      as (gWout & HWout & _ & HeWout).
    exists gWin, gWout. split_and!; try done.
    + intros j i Hj Hi Hadj Hne.
      assert (Hcond : bool_decide (0 <= j < nV g)
                      && bool_decide (0 <= i < nV g)
                      && isAdjacent g j i && negb (j =? i) = true).
      { rewrite !bool_decide_eq_true_2, Hadj by done.
        by destruct (Z.eqb_spec j i). }
      rewrite HeWin, HeWout, Hcond. q_ops. split.
      * rewrite (sumF_Qeq (incomingDegree g)
                   (fun k => inject_Z (inCount g k)))
          by (intros k _; rewrite incomingDegree_Q; reflexivity).
        rewrite incomingDegree_Q. reflexivity.
      * assert (Hsum : (sumF ((fun k => effOut (outgoingDegree g k))
                                <$> outNeighbours g j)
                        == sumF ((fun k => effOut (inject_Z (outCount g k)))
                                   <$> outNeighbours g j))%Q).
        { apply sumF_Qeq. intros k _. apply effOut_Qeq, outgoingDegree_Q. }
        rewrite (effOut_Qeq _ _ Hsum).
        rewrite (effOut_Qeq _ _ (outgoingDegree_Q g i)). reflexivity.
    + intros d diffPR maxIterations.
      destruct (calculatePageRank_trace l g d diffPR maxIterations Hwf)
        as (gWin' & gWout' & n & l' & HWin' & HWout' & Hrun & Hit & _).
      exists n, l'. split; [done|]. congruence.
  - intros Hpos. destruct Hwf as [HnV _].
    assert (Hranks : ranks (initialiseRankAndDegree l g (of_int (nV g)))
                     = replicate (length l) (1 / inject_Z (nV g))%Q).
    { unfold ranks, initialiseRankAndDegree.
      clear. induction l as [|pi l IH]; simpl; [done | by rewrite <- IH]. }
    rewrite Hranks, sumF_replicate. unfold size in HnV. rewrite <- HnV.
    field. change 0%Q with (inject_Z 0). rewrite inject_Z_injective. lia.
Qed.

(** C8.  For every edge [j -> i] of a well-formed graph the denominator of
    Win, the sum of the in-degrees of the out-neighbours of [j], is at
    least 1: [i] is among them and [j] counts for its in-degree.  So
    calculateWin never divides by 0. *)
Theorem Win_denominator l g j i :
  wf l g -> 0 <= j < nV g -> 0 <= i < nV g -> isAdjacent g j i = true ->
  exists total,
    pjTotalIncomingLinks (initialiseRankAndDegree l g (of_int (nV g))) g j
      = Some total
    /\ total = sumF (incomingDegree g <$> outNeighbours g j)
    /\ (1 <= total)%Q /\ ~ (total == 0)%Q.
Proof.
  intros Hwf Hj Hi Hadj.
  exists (sumF (incomingDegree g <$> outNeighbours g j)).
  assert (Hge : (1 <= sumF (incomingDegree g <$> outNeighbours g j))%Q).
  { eapply Qle_trans; [apply (incomingDegree_edge g j i Hj Hadj)|].
    apply sumF_elem.
    - intros x (k & -> & _)%list_elem_of_fmap. apply incomingDegree_nonneg.
    - apply list_elem_of_fmap. exists i. split; [done|].
      by apply elem_of_outNeighbours. }
  split_and!; try done.
  - apply pjTotalIncomingLinks_closed.
    apply initialise_field; done.
  - intros H0. rewrite H0 in Hge. by apply Qle_not_lt in Hge.
Qed.

(** C9.  In a graph of two nodes whose only edge is [0 -> 1], the engine
    computes [Win[0][1] == 1] and [Wout[0][1] == 1]. *)
Theorem two_nodes_one_edge l g :
  wf l g -> nV g = 2 ->
  isAdjacent g 0 1 = true -> isAdjacent g 1 0 = false ->
  isAdjacent g 0 0 = false -> isAdjacent g 1 1 = false ->
  exists gWin gWout,
    setGraphWin (initialiseRankAndDegree l g (of_int (nV g))) g = Some gWin
    /\ setGraphWout (initialiseRankAndDegree l g (of_int (nV g))) g
         = Some gWout
    /\ (edges gWin 0 1 == 1)%Q /\ (edges gWout 0 1 == 1)%Q.
Proof.
  intros Hwf HnV H01 H10 H00 H11.
  destruct (setGraphWin_closed l g (of_int (nV g)) Hwf)
    as (gWin & HWin & _ & HeWin).
  destruct (setGraphWout_closed l g (of_int (nV g)) Hwf)
    as (gWout & HWout & _ & HeWout).
  assert (Hv : vertices g = [0; 1])
    by (unfold vertices; rewrite HnV; reflexivity).
  exists gWin, gWout. split_and!; try done.
  - rewrite HeWin, H01, HnV. simpl.
    unfold outNeighbours, incomingDegree. rewrite Hv. simpl.
    rewrite !H00, !H01, !H11. simpl. rewrite !H01, !H11.
    unfold sumF. q_ops. simpl. reflexivity.
  - rewrite HeWout, H01, HnV. simpl.
    unfold outNeighbours, outgoingDegree. rewrite Hv. simpl.
    rewrite !H00, !H01, !H10, !H11. simpl. rewrite ?H10, ?H11.
    unfold sumF, effOut. q_ops. simpl. reflexivity.
Qed.


End Rational.

(** * Further properties, for every arithmetic *)

Section Lookup.

Context {F : Type} {D : Double F} {G : GraphADT F}.
Implicit Types (l : list (Node F)) (g : Graph F).

(** ** getNode *)

Lemma index_inj_NoDup l (a b : Node F) :
  NoDup (index <$> l) -> a ∈ l -> b ∈ l -> index a = index b -> a = b.
Proof.
  induction l as [|x l IH]; simpl; intros Hnd Ha Hb Hab.
  - by apply elem_of_nil in Ha.
  - apply NoDup_cons in Hnd as [Hx Hnd].
    apply elem_of_cons in Ha as [->|Ha], Hb as [->|Hb].
    + done.
    + exfalso. apply Hx. rewrite Hab. by apply list_elem_of_fmap_2.
    + exfalso. apply Hx. rewrite <- Hab. by apply list_elem_of_fmap_2.
    + by apply IH.
Qed.

Lemma wf_NoDup l g : wf l g -> NoDup (index <$> l).
Proof. intros [_ Hperm]. rewrite Hperm. apply NoDup_seqZ. Qed.

Lemma wf_index_range l g n : wf l g -> n ∈ l -> 0 <= index n < nV g.
Proof.
  intros [HnV Hperm] Hn. rewrite HnV.
  assert (Hin : index n ∈ index <$> l) by by apply list_elem_of_fmap_2.
  rewrite Hperm, elem_of_seqZ in Hin. lia.
Qed.

(** X1.  On a well-formed list getNode is the lookup by index: it returns
    [n] exactly if [n] is the node of the list with that index, and it
    returns nothing exactly if the index is outside [0, size). *)
Theorem getNode_lookup l g :
  wf l g ->
  forall i,
    (forall n, getNode l i = Some n <-> n ∈ l /\ index n = i)
    /\ (getNode l i = None <-> ~ (0 <= i < size l)).
Proof.
  intros Hwf i. split.
  - intros n. split.
    + intros Hn. apply getNode_Some in Hn. tauto.
    + intros [Hn <-].
      destruct (getNode_wf l g (index n) Hwf (wf_index_range l g n Hwf Hn))
        as (n' & Hget & Hidx & Hn').
      rewrite Hget. f_equal.
      by apply (index_inj_NoDup l n' n (wf_NoDup l g Hwf)).
  - split.
    + intros Hnone Hi. destruct Hwf as [HnV Hperm].
      destruct (getNode_wf l g i (conj HnV Hperm) ltac:(lia)) as (n & Hn & _).
      congruence.
    + intros Hi. unfold getNode.
      destruct (Z.leb_spec 0 i), (Z.ltb_spec i (size l)); simpl; try done.
      lia.
Qed.

(** ** getUrlIndex *)

Lemma getUrlIndex_found l word n :
  List.find (fun n => String.eqb word (url n)) l = Some n ->
  n ∈ l /\ url n = word.
Proof.
  intros H. apply find_some in H as [Hin Heq].
  apply String.eqb_eq in Heq. split; [by apply list_elem_of_In | done].
Qed.

(** X2.  getUrlIndex returns the index of a node of the list that carries
    the url, and -1 if no node does; when no index is negative, -1 is
    returned only for an unknown url. *)
Theorem getUrlIndex_spec l word :
  ((forall n, n ∈ l -> url n <> word) -> getUrlIndex l word = -1)
  /\ ((exists n, n ∈ l /\ url n = word) ->
      exists n, n ∈ l /\ url n = word /\ getUrlIndex l word = index n)
  /\ ((forall n, n ∈ l -> 0 <= index n) ->
      (getUrlIndex l word = -1 <-> forall n, n ∈ l -> url n <> word)).
Proof.
  assert (Habsent : (forall n, n ∈ l -> url n <> word) ->
                    getUrlIndex l word = -1).
  { intros Hno. unfold getUrlIndex.
    destruct (List.find _ l) as [n|] eqn:Hfind; [|done].
    apply getUrlIndex_found in Hfind as [Hn Hurl]. by destruct (Hno n Hn). }
  assert (Hpresent : (exists n, n ∈ l /\ url n = word) ->
            exists n, n ∈ l /\ url n = word /\ getUrlIndex l word = index n).
  { intros (n & Hn & Hurl). unfold getUrlIndex.
    destruct (List.find _ l) as [n'|] eqn:Hfind.
    - exists n'. apply getUrlIndex_found in Hfind. tauto.
    - apply list_elem_of_In in Hn.
      pose proof (find_none _ _ Hfind n Hn) as Hf. simpl in Hf.
      apply String.eqb_neq in Hf. congruence. }
  split_and!; [done | done |].
  intros Hpos. split; [|done].
  intros Hminus n Hn Hurl.
  destruct (Hpresent (ex_intro _ n (conj Hn Hurl))) as (n' & Hn' & _ & Heq).
  specialize (Hpos n' Hn'). lia.
Qed.

End Lookup.


(** * Further properties of the loader *)

Section Loader.

Context {F : Type} {D : Double F} {G : GraphADT F}.
Implicit Types (l : list (Node F)) (g : Graph F).

(** ** getUrlIndex against the list *)

(** X3.  When the urls of the list are pairwise different, getUrlIndex
    finds every node of the list by its url: it returns that node's
    index. *)
Theorem getUrlIndex_of_node l :
  NoDup (url <$> l) ->
  forall n, n ∈ l -> getUrlIndex l (url n) = index n.
Proof.
  intros Hnd n Hn. unfold getUrlIndex.
  destruct (List.find _ l) as [n'|] eqn:Hfind.
  - apply getUrlIndex_found in Hfind as [Hn' Hurl]. f_equal.
    clear -Hnd Hn Hn' Hurl. induction l as [|x l IH]; simpl in *.
    + by apply elem_of_nil in Hn.
    + apply NoDup_cons in Hnd as [Hx Hnd].
      apply elem_of_cons in Hn as [->|Hn], Hn' as [->|Hn'].
      * done.
      * exfalso. apply Hx. rewrite <- Hurl. by apply list_elem_of_fmap_2.
      * exfalso. apply Hx. rewrite Hurl. by apply list_elem_of_fmap_2.
      * by apply IH.
  - apply list_elem_of_In in Hn.
    pose proof (find_none _ _ Hfind n Hn) as Hf. simpl in Hf.
    by rewrite String.eqb_refl in Hf.
Qed.

(** ** readCollectionFile *)

Lemma ListAppend_closed (words : list string) : forall l0 : list (Node F),
  foldl ListAppend l0 words
  = l0 ++ imap (fun k name =>
                  mkNode name (size l0 + Z.of_nat k)
                         (of_int 0) (of_int 0) (of_int 0) (of_int 0)) words.
Proof.
  induction words as [|word rest IH]; intros l0.
  - simpl. by rewrite app_nil_r.
  - cbn [foldl imap]. rewrite IH. unfold ListAppend.
    rewrite <- app_assoc. f_equal. simpl. f_equal.
    + f_equal. lia.
    + apply imap_ext. intros k name _. simpl. f_equal.
      unfold size. rewrite length_app. simpl. lia.
Qed.

Lemma ListAppend_urls (words : list string) :
  url <$> foldl ListAppend ([] : list (Node F)) words = words.
Proof.
  rewrite ListAppend_closed. simpl. rewrite fmap_imap.
  clear. generalize 0%nat. induction words as [|word rest IH]; intros k.
  - done.
  - simpl. f_equal. rewrite <- (IH (S k)) at 2. apply imap_ext. done.
Qed.

Lemma readCollectionFile_None fs :
  readCollectionFile (F:=F) fs = None
  <-> fs "collection.txt"%string = None
      \/ exists fp, fs "collection.txt"%string = Some fp /\ fscanf_s fp = [].
Proof.
  unfold readCollectionFile.
  destruct (fs "collection.txt"%string) as [fp|]; simpl.
  - destruct (fscanf_s fp) as [|word rest] eqn:Hwords.
    + simpl. split; [|done]. intros _. right. by exists fp.
    + split; [|by intros [?|(fp' & [= <-] & ?)]; congruence].
      pose proof (ListAppend_urls (word :: rest)) as Hurls.
      destruct (foldl ListAppend [] (word :: rest)); [done|done].
  - split; [by left | done].
Qed.

Lemma readCollectionFile_Some fs l :
  readCollectionFile fs = Some l ->
  l <> []
  /\ (exists fp, fs "collection.txt"%string = Some fp
                 /\ url <$> l = fscanf_s fp)
  /\ indices l = seqZ 0 (size l).
Proof.
  unfold readCollectionFile. intros Hl.
  destruct (fs "collection.txt"%string) as [fp|]; simpl in Hl; [|done].
  assert (Hfs : exists fp', Some fp = Some fp' /\ fscanf_s fp = fscanf_s fp')
    by (by exists fp).
  revert Hl Hfs. generalize (fscanf_s fp) at 1 2. intros words Hl Hfs.
  assert (Hfold : foldl ListAppend [] words = l /\ l <> []).
  { destruct (foldl ListAppend [] words); [done|]. by injection Hl as <-. }
  destruct Hfold as [<- Hne].
  pose proof (ListAppend_indices words ([] : list (Node F))) as Hidx.
  simpl in Hidx.
  assert (Hlen : length (foldl ListAppend ([] : list (Node F)) words)
                 = length words).
  { rewrite <- (length_fmap url). by rewrite ListAppend_urls. }
  split_and!.
  - done.
  - by rewrite ListAppend_urls.
  - rewrite Hidx. unfold size. by rewrite Hlen.
Qed.

(** X4.  readCollectionFile yields no list exactly if collection.txt cannot
    be opened or holds no word.  Otherwise the list has one node per word
    that [fscanf] reads of the file, in the order of the file, with the word
    as its url and its position as its index; if the words are pairwise
    different, getUrlIndex returns the position of each word. *)
Theorem readCollectionFile_spec fs :
  (readCollectionFile (F:=F) fs = None
   <-> fs "collection.txt"%string = None
       \/ exists fp, fs "collection.txt"%string = Some fp
                     /\ fscanf_s fp = [])
  /\ forall l,
       readCollectionFile fs = Some l ->
       l <> []
       /\ (exists fp, fs "collection.txt"%string = Some fp
                      /\ url <$> l = fscanf_s fp)
       /\ indices l = seqZ 0 (size l)
       /\ (NoDup (url <$> l) ->
           forall (k : nat) word, (url <$> l) !! k = Some word ->
             getUrlIndex l word = Z.of_nat k).
Proof.
  split; [apply readCollectionFile_None|].
  intros l Hl.
  destruct (readCollectionFile_Some fs l Hl) as (Hne & Hfs & Hidx).
  split_and!; try done.
  intros Hnd k word Hk.
  apply list_lookup_fmap_Some in Hk as (n & -> & Hn).
  rewrite getUrlIndex_of_node; [|done|by eapply list_elem_of_lookup_2].
  assert (Hi : indices l !! k = Some (index n)).
  { unfold indices. apply list_lookup_fmap_Some. by exists n. }
  rewrite Hidx in Hi. apply lookup_seqZ in Hi. lia.
Qed.

(** ** createGraph and insertEdges *)

Lemma createGraph_loop_None fs l (pages : list (Node F)) : forall g0,
  foldlM (fun g curr =>
            fp ← fs (url curr ++ ".txt")%string;
            Some (insertEdges g l fp curr)) g0 pages = None
  <-> exists curr, curr ∈ pages /\ fs (url curr ++ ".txt")%string = None.
Proof.
  induction pages as [|page pages IH]; intros g0; simpl.
  - split; [done|]. intros (curr & Hin & _). by apply elem_of_nil in Hin.
  - destruct (fs (url page ++ ".txt")%string) as [words|] eqn:Hfs; simpl.
    + rewrite IH. split.
      * intros (curr & Hin & Hnone). exists curr. split; [by right | done].
      * intros (curr & [->|Hin]%elem_of_cons & Hnone); [congruence|].
        by exists curr.
    + split; [|done]. intros _. exists page. split; [by left | done].
Qed.

(** X5.  createGraph fails exactly if the file of some page of the list
    cannot be opened; otherwise it returns a graph with one vertex per
    node. *)
Theorem createGraph_fails fs l :
  (createGraph fs l = None
   <-> exists curr, curr ∈ l /\ fs (url curr ++ ".txt")%string = None)
  /\ forall g, createGraph fs l = Some g -> nV g = size l.
Proof.
  split.
  - apply createGraph_loop_None.
  - intros g. apply createGraph_nV.
Qed.

Lemma insertedEdges_word l words curr e :
  e ∈ insertedEdges l words curr ->
  exists word, word ∈ words /\ word <> "#end"%string
               /\ getUrlIndex l word = w e.
Proof.
  induction words as [|word rest IH]; simpl; [by intros ?%elem_of_nil|].
  destruct (String.eqb_spec word "#end"); [by intros ?%elem_of_nil|].
  assert (Hrest : e ∈ insertedEdges l rest curr ->
                  exists word0, word0 ∈ word :: rest
                    /\ word0 <> "#end"%string /\ getUrlIndex l word0 = w e).
  { intros (word0 & Hin & Hrest)%IH. exists word0. split; [by right|done]. }
  destruct (_ && _); [|done].
  intros [->|He]%elem_of_cons; [|by apply Hrest].
  exists word. split; [by left | done].
Qed.

Lemma foldl_insert_support (es : list (Edge F)) : forall g a b,
  edges (foldl GraphInsertEdge g es) a b <> of_int 0 ->
  edges g a b <> of_int 0 \/ exists e, e ∈ es /\ v e = a /\ w e = b.
Proof.
  induction es as [|e es IH]; intros g a b Hne; simpl in *; [by left|].
  destruct (IH _ a b Hne) as [Hg | (e' & He' & Hv & Hw)].
  - destruct (decide ((a, b) = (v e, w e))) as [[= -> ->]|Hab].
    + right. exists e. split; [by left | done].
    + left. by rewrite GraphInsertEdge_frame in Hg.
  - right. exists e'. split; [by right | done].
Qed.

(** X6.  createGraph puts a weight only where a page links to another
    page: a cell [a][b] that is not 0 comes from a page with index [a]
    whose file holds, among the words that insertEdges reads of it, a word
    other than [#end] that getUrlIndex resolves to [b], with [b >= 0] and
    [b <> a]. *)
Theorem createGraph_edges_from_links fs l g :
  createGraph fs l = Some g ->
  forall a b, edges g a b <> of_int 0 ->
    exists curr fp word,
      curr ∈ l /\ index curr = a
      /\ fs (url curr ++ ".txt")%string = Some fp
      /\ word ∈ linkWords fp /\ word <> "#end"%string
      /\ getUrlIndex l word = b /\ 0 <= b /\ b <> a.
Proof.
  intros Hload a b. revert Hload. unfold createGraph.
  apply (foldlM_invariant (fun g =>
    edges g a b <> of_int 0 ->
    exists curr fp word,
      curr ∈ l /\ index curr = a
      /\ fs (url curr ++ ".txt")%string = Some fp
      /\ word ∈ linkWords fp /\ word <> "#end"%string
      /\ getUrlIndex l word = b /\ 0 <= b /\ b <> a)).
  - intros Hne. by rewrite GraphNew_edges in Hne.
  - intros g1 curr g2 Hcurr IH.
    destruct (fs (url curr ++ ".txt")%string) as [fp|] eqn:Hfs;
      simpl; [|done].
    intros [= <-] Hne. rewrite insertEdges_foldl in Hne.
    apply foldl_insert_support in Hne as [Hg1 | (e & He & Hv & Hw)];
      [by apply IH|].
    destruct (insertedEdges_word l (linkWords fp) curr e He)
      as (word & Hword & Hend & Hidx).
    apply insertedEdges_proper in He as (Hve & Hwe & Hpos & _).
    exists curr, fp, word. split_and!; try done; congruence.
Qed.

(** ** The first line of a page's file *)








(** ** Links become edges *)

Lemma foldl_insert_keeps (es : list (Edge F)) : forall g a b,
  (forall g e, weight e = of_int 1 ->
     edges g (v e) (w e) <> of_int 0 ->
     edges (GraphInsertEdge g e) (v e) (w e) <> of_int 0) ->
  (forall e, e ∈ es -> weight e = of_int 1) ->
  edges g a b <> of_int 0 ->
  edges (foldl GraphInsertEdge g es) a b <> of_int 0.
Proof.
  induction es as [|e es IH]; intros g a b Hkeep Hes Hab; simpl; [done|].
  apply IH; [done | intros e' He'; apply Hes; by right |].
  destruct (decide ((a, b) = (v e, w e))) as [[= -> ->]|Hne].
  - apply Hkeep; [apply Hes; by left | done].
  - by rewrite GraphInsertEdge_frame.
Qed.

Lemma insertedEdges_app l before rest curr :
  "#end"%string ∉ before ->
  insertedEdges l (before ++ rest) curr
  = insertedEdges l before curr ++ insertedEdges l rest curr.
Proof.
  induction before as [|word before IH]; intros Hend; simpl; [done|].
  apply not_elem_of_cons in Hend as [Hword Hend].
  destruct (String.eqb_spec word "#end"); [congruence|].
  destruct (_ && _); simpl; by rewrite IH.
Qed.

Lemma insertEdges_link g l fp before word after curr :
  (forall g e, weight e = of_int 1 ->
     edges g (v e) (w e) <> of_int 0 ->
     edges (GraphInsertEdge g e) (v e) (w e) <> of_int 0) ->
  of_int 1 <> (of_int 0 : F) ->
  "#end"%string ∉ before -> word <> "#end"%string ->
  0 <= getUrlIndex l word -> getUrlIndex l word <> index curr ->
  linkWords fp = before ++ word :: after ->
  edges (insertEdges g l fp curr)
        (index curr) (getUrlIndex l word) <> of_int 0.
Proof.
  intros Hkeep H10 Hend Hword Hpos Hself Hwords.
  rewrite insertEdges_foldl, Hwords, insertedEdges_app by done.
  cbn [insertedEdges]. destruct (String.eqb_spec word "#end"); [done|].
  destruct (Z.leb_spec 0 (getUrlIndex l word)); [|lia].
  destruct (Z.eqb_spec (getUrlIndex l word) (index curr)); [done|].
  cbn [andb negb]. rewrite foldl_app. cbn [foldl].
  apply foldl_insert_keeps; [done | |].
  - intros e He. by apply insertedEdges_proper in He as (_ & _ & _ & ?).
  - set (g1 := foldl GraphInsertEdge g (insertedEdges l before curr)).
    set (e := mkEdge (index curr) (getUrlIndex l word) (of_int 1)).
    intros Hempty.
    assert (Hnn : ~ ~ (edges g1 (index curr) (getUrlIndex l word) = of_int 0
                      \/ edges g1 (index curr) (getUrlIndex l word)
                         <> of_int 0)) by tauto.
    apply Hnn. intros [H0|Hocc].
    + rewrite (GraphInsertEdge_fresh g1 e) in Hempty; simpl; [done|lia|done].
    + by apply (Hkeep g1 e eq_refl Hocc).
Qed.

Lemma insertEdges_keeps g l fp curr a b :
  (forall g e, weight e = of_int 1 ->
     edges g (v e) (w e) <> of_int 0 ->
     edges (GraphInsertEdge g e) (v e) (w e) <> of_int 0) ->
  edges g a b <> of_int 0 ->
  edges (insertEdges g l fp curr) a b <> of_int 0.
Proof.
  intros Hkeep Hab. rewrite insertEdges_foldl.
  apply foldl_insert_keeps; [done | | done].
  intros e He. by apply insertedEdges_proper in He as (_ & _ & _ & ?).
Qed.

(** X19.  Every link becomes an edge: let an insertion of weight 1 into an
    occupied cell leave the cell occupied (the one thing about Graph.c that
    the interface leaves open and this needs), and let 1 differ from 0.
    Take a page of the list and the words that insertEdges reads of its
    file, those behind the first line.  For every one of them that stands
    before the first [#end] and that getUrlIndex resolves to the index of
    another page, the loaded graph has a weight other than 0 in the cell
    from the page to that index. *)
Theorem createGraph_links_become_edges fs l g :
  (forall g e, weight e = of_int 1 ->
     edges g (v e) (w e) <> of_int 0 ->
     edges (GraphInsertEdge g e) (v e) (w e) <> of_int 0) ->
  of_int 1 <> (of_int 0 : F) ->
  createGraph fs l = Some g ->
  forall curr fp before word after,
    curr ∈ l ->
    fs (url curr ++ ".txt")%string = Some fp ->
    linkWords fp = before ++ word :: after ->
    "#end"%string ∉ before -> word <> "#end"%string ->
    0 <= getUrlIndex l word -> getUrlIndex l word <> index curr ->
    edges g (index curr) (getUrlIndex l word) <> of_int 0.
Proof.
  intros Hkeep H10 Hload curr fp before word after Hcurr Hfs Hwords Hend
         Hword Hpos Hself.
  revert Hload. unfold createGraph. generalize (GraphNew (size l)).
  revert Hcurr. generalize l at 1 3. intros pages.
  induction pages as [|page pages IH]; intros Hcurr g0;
    [by apply elem_of_nil in Hcurr|].
  cbn [foldlM].
  destruct (fs (url page ++ ".txt")%string) as [fp'|] eqn:Hpage;
    simpl; [|done].
  apply elem_of_cons in Hcurr as [<-|Hcurr]; [|by apply IH].
  rewrite Hfs in Hpage. injection Hpage as <-.
  apply (foldlM_invariant
           (fun g => edges g (index curr) (getUrlIndex l word) <> of_int 0)).
  - by apply (insertEdges_link _ _ _ before word after).
  - intros g1 page g2 _ Hg1.
    destruct (fs (url page ++ ".txt")%string) as [fp'|]; simpl; [|done].
    intros [= <-]. by apply insertEdges_keeps.
Qed.


End Loader.


(** * Further properties of the engine, for every arithmetic *)

Section EngineMore.

Context {F : Type} {D : Double F} {G : GraphADT F}.
Implicit Types (l : list (Node F)) (g : Graph F).

(** X8.  On a well-formed list the matrices Win and Wout have the size of
    the graph and are 0 in every cell that is not an edge of the graph off
    the diagonal. *)
Theorem weights_support l g :
  wf l g ->
  exists gWin gWout,
    setGraphWin (initialiseRankAndDegree l g (of_int (nV g))) g = Some gWin
    /\ setGraphWout (initialiseRankAndDegree l g (of_int (nV g))) g
         = Some gWout
    /\ nV gWin = nV g /\ nV gWout = nV g
    /\ forall a b,
         ~ (0 <= a < nV g) \/ ~ (0 <= b < nV g)
         \/ isAdjacent g a b = false \/ a = b ->
         edges gWin a b = of_int 0 /\ edges gWout a b = of_int 0.
Proof.
  intros Hwf.
  destruct (setGraphWin_closed l g (of_int (nV g)) Hwf)
    as (gWin & HWin & HnVin & Hin).
  destruct (setGraphWout_closed l g (of_int (nV g)) Hwf)
    as (gWout & HWout & HnVout & Hout).
  exists gWin, gWout. split_and!; try done.
  intros a b Hab. rewrite Hin, Hout.
  assert (Hc : bool_decide (0 <= a < nV g) && bool_decide (0 <= b < nV g)
               && isAdjacent g a b && negb (a =? b) = false);
    [|by rewrite Hc].
  destruct Hab as [Ha | [Hb | [Hadj | ->]]].
  - by rewrite (bool_decide_eq_false_2 _ Ha).
  - rewrite (bool_decide_eq_false_2 _ Hb). by rewrite andb_false_r.
  - rewrite Hadj. by rewrite andb_false_r.
  - rewrite Z.eqb_refl. by rewrite andb_false_r.
Qed.

(** ** What a run leaves untouched *)

Lemma sameShape_refl (a : Node F) : sameShape a a.
Proof. done. Qed.

Lemma sameShape_trans (a b c : Node F) :
  sameShape a b -> sameShape b c -> sameShape a c.
Proof.
  unfold sameShape. intros (?&?&?&?) (?&?&?&?). split_and!; congruence.
Qed.

Lemma Forall2_sameShape_trans (l1 l2 l3 : list (Node F)) :
  Forall2 sameShape l1 l2 -> Forall2 sameShape l2 l3 ->
  Forall2 sameShape l1 l3.
Proof.
  intros H12. revert l3. induction H12 as [|a b l1 l2 Hab _ IH]; intros l3 H23.
  - by apply Forall2_nil_inv_l in H23 as ->.
  - apply Forall2_cons_inv_l in H23 as (c & l3' & Hbc & H23 & ->).
    constructor; [by eapply sameShape_trans | by apply IH].
Qed.

Lemma walk_sameShape (body : list (Node F) -> Node F -> option (Node F)) :
  (forall mem pi pi', body mem pi = Some pi' -> sameShape pi pi') ->
  forall ahead passed r,
    walk body passed ahead = Some r ->
    exists rest, r = passed ++ rest /\ Forall2 sameShape ahead rest.
Proof.
  intros Hbody. induction ahead as [|pi ahead IH]; intros passed r; simpl.
  - intros [= <-]. exists []. by rewrite app_nil_r.
  - destruct (body (passed ++ pi :: ahead) pi) as [pi'|] eqn:Hpi; [|done].
    intros (rest & -> & Hrest)%IH. exists (pi' :: rest).
    rewrite <- app_assoc. split; [done|].
    constructor; [by eapply Hbody | done].
Qed.

Lemma rankStep_sameShape d N g gWin gWout l l' :
  rankStep d N g gWin gWout l = Some l' -> Forall2 sameShape l l'.
Proof.
  unfold rankStep. rewrite storePrevRank_snapshot. simpl.
  unfold updateRank. intros Hwalk.
  apply walk_sameShape in Hwalk as (rest & -> & Hrest).
  - simpl. eapply Forall2_sameShape_trans; [|exact Hrest].
    unfold snapshot. apply Forall2_fmap_r, Forall_Forall2_diag.
    apply Forall_forall. done.
  - intros mem pi pi'. destruct (getPageWeight _ _ _ _ _); simpl; [|done].
    by intros [= <-].
Qed.

Lemma rankLoop_sameShape d N diffPR maxIterations g gWin gWout :
  forall fuel i diff l i' l',
    rankLoop fuel d N diffPR maxIterations g gWin gWout i diff l
      = Some (i', l') ->
    Forall2 sameShape l l' /\ i <= i' <= Z.max i maxIterations.
Proof.
  induction fuel as [|fuel IH]; intros i diff l i' l'; simpl.
  - destruct (_ && _); [done|]. intros [= <- <-].
    split; [|lia]. apply Forall_Forall2_diag, Forall_forall. done.
  - destruct ((i <? maxIterations) && dgeb diff diffPR) eqn:Hc.
    + apply andb_true_iff in Hc as [Hi _]. apply Z.ltb_lt in Hi.
      destruct (rankStep d N g gWin gWout l) as [l1|] eqn:Hstep;
        simpl; [|done].
      intros [Hshape Hcount]%IH. split; [|lia].
      eapply Forall2_sameShape_trans; [|exact Hshape].
      by eapply rankStep_sameShape.
    + intros [= <- <-].
      split; [|lia]. apply Forall_Forall2_diag, Forall_forall. done.
Qed.


(** ** The closed form of a run *)

Lemma rankStep_stepList d N l g gWin gWout :
  wf l g ->
  rankStep d N g gWin gWout l = Some (stepList d N g gWin gWout l).
Proof.
  intros Hwf. apply rankStep_closed. intros j Hj. unfold rankAt.
  destruct (getNode_wf l g j Hwf Hj) as (n & Hn & _).
  unfold rankOf. by rewrite Hn.
Qed.

Lemma wf_stepList d N l g gWin gWout :
  wf l g -> wf (stepList d N g gWin gWout l) g.
Proof. by apply wf_fmap. Qed.

Lemma iterSteps_snoc d N g gWin gWout (n : nat) : forall l l',
  wf l g ->
  iterSteps d N g gWin gWout (S n) l = Some l' ->
  exists lm, iterSteps d N g gWin gWout n l = Some lm /\ wf lm g
             /\ l' = stepList d N g gWin gWout lm.
Proof.
  induction n as [|n IH]; intros l l' Hwf.
  - cbn [iterSteps]. rewrite (rankStep_stepList d N l g gWin gWout Hwf).
    simpl. intros [= <-]. by exists l.
  - change (iterSteps d N g gWin gWout (S (S n)) l)
      with (l1 ← rankStep d N g gWin gWout l;
            iterSteps d N g gWin gWout (S n) l1).
    rewrite (rankStep_stepList d N l g gWin gWout Hwf). simpl.
    intros Hit. apply IH in Hit as (lm & Hlm & Hwfm & ->);
      [|by apply wf_stepList].
    exists lm. split; [|done].
    rewrite (rankStep_stepList d N l g gWin gWout Hwf). done.
Qed.

(** ** main *)

Lemma Forall2_sameShape_urls (l1 l2 : list (Node F)) :
  Forall2 sameShape l1 l2 ->
  url <$> l2 = url <$> l1 /\ indices l2 = indices l1
  /\ length l2 = length l1.
Proof.
  unfold indices. induction 1 as [|a b l1 l2 (Hu & Hi & _) _ IH]; [done|].
  destruct IH as (IHu & IHi & IHl). rewrite !fmap_cons. cbn [length].
  by rewrite Hu, Hi, IHu, IHi, IHl.
Qed.

Lemma calculatePageRank_urls l g d diffPR maxIterations i l' :
  calculatePageRank l g d diffPR maxIterations = Some (i, l') ->
  url <$> l' = url <$> l /\ indices l' = indices l
  /\ length l' = length l.
Proof.
  unfold calculatePageRank.
  destruct (setGraphWin _ g) as [gWin|]; simpl; [|done].
  destruct (setGraphWout _ g) as [gWout|]; simpl; [|done].
  intros [Hshape _]%rankLoop_sameShape.
  apply Forall2_sameShape_urls in Hshape as (Hu & Hi & Hl).
  unfold initialiseRankAndDegree, indices in *.
  rewrite <- list_fmap_compose in Hu, Hi. rewrite length_fmap in Hl.
  done.
Qed.

(** X20.  main returns no list exactly if collection.txt cannot be opened
    or holds no word, or the file of one of its words cannot be opened: no
    value of the damping factor, the threshold or the iteration cap makes it
    fail.  A list that it returns has one node per word of collection.txt,
    in the order of the file, with the word as url and its position as
    index. *)
Theorem main_result fs (d diffPR : F) maxIterations :
  (main fs d diffPR maxIterations = None
   <-> fs "collection.txt"%string = None
       \/ (exists fp, fs "collection.txt"%string = Some fp
                      /\ fscanf_s fp = [])
       \/ exists fp word,
            fs "collection.txt"%string = Some fp
            /\ word ∈ fscanf_s fp /\ fs (word ++ ".txt")%string = None)
  /\ forall l',
       main fs d diffPR maxIterations = Some l' ->
       (exists fp, fs "collection.txt"%string = Some fp
                   /\ url <$> l' = fscanf_s fp)
       /\ indices l' = seqZ 0 (size l').
Proof.
  unfold main.
  destruct (readCollectionFile fs) as [l|] eqn:Hread; simpl.
  - destruct (readCollectionFile_Some fs l Hread)
      as (Hne & (fp & Hfs & Hwords) & Hidx).
    destruct (createGraph fs l) as [g|] eqn:Hload; simpl.
    + destruct (readCollectionFile_wf fs l g Hread Hload) as [Hwf _].
      destruct (calculatePageRank_trace l g d diffPR maxIterations Hwf)
        as (_ & _ & n & l' & _ & _ & Hrun & _).
      rewrite Hrun. simpl. split.
      * split; [done|].
        intros [Hc|[(fp' & Hc & Hnil)|(fp' & word & Hc & Hw & Hnone)]].
        -- congruence.
        -- rewrite Hfs in Hc. injection Hc as <-.
           rewrite Hnil in Hwords. by apply fmap_nil_inv in Hwords.
        -- rewrite Hfs in Hc. injection Hc as <-. rewrite <- Hwords in Hw.
           apply list_elem_of_fmap in Hw as (curr & -> & Hcurr).
           assert (Hfail : createGraph fs l = None)
             by (apply createGraph_loop_None; by exists curr).
           congruence.
      * intros ? [= <-].
        apply calculatePageRank_urls in Hrun as (Hu & Hi & Hl).
        split; [exists fp; by rewrite Hu|].
        rewrite Hi. unfold size. by rewrite Hl.
    + split; [|done]. split; [|done]. intros _. right. right.
      apply createGraph_loop_None in Hload as (curr & Hcurr & Hnone).
      exists fp, (url curr). split_and!; try done.
      rewrite <- Hwords. by apply list_elem_of_fmap_2.
  - split; [|done]. split; [|done]. intros _.
    apply readCollectionFile_None in Hread as [?|?]; [by left|by right; left].
Qed.

End EngineMore.


(** * The configuration, for every arithmetic *)

Section Configuration.

Context {F : Type} {D : Double F} {G : GraphADT F}.
Implicit Types (l : list (Node F)) (g : Graph F).

(** C5, as the code has it.  The engine checks nothing and surfaces no
    error: on a well-formed list calculatePageRank returns a list for every
    damping factor, threshold and iteration cap, and main hands that list on
    whenever it could load the collection.  With [maxIterations <= 1], so
    for every [maxIterations <= 0], no pass is made, and the list returned
    is the initial one, every rank [1 / N].  A threshold is not refused
    either, [diffPR <= 0] included: whenever [diffPR >= diffPR] holds, which
    only a NaN fails, and [maxIterations >= 2], at least one pass is made.
    With [N = 0] nodes the list returned is empty, no rank is computed; such
    a list never comes from readCollectionFile, which yields no list for a
    collection without a word, and main returns nothing then. *)
Theorem no_configuration_check l g (d diffPR : F) maxIterations :
  wf l g ->
  exists (n : nat) l',
    calculatePageRank l g d diffPR maxIterations = Some (1 + Z.of_nat n, l')
    /\ (forall fs, readCollectionFile fs = Some l ->
          createGraph fs l = Some g ->
          main fs d diffPR maxIterations = Some l')
    /\ (maxIterations <= 1 ->
          n = 0%nat
          /\ l' = initialiseRankAndDegree l g (of_int (nV g))
          /\ forall pi, pi ∈ l' -> rank pi = ddiv (of_int 1) (of_int (nV g)))
    /\ (2 <= maxIterations -> dgeb diffPR diffPR = true -> (1 <= n)%nat)
    /\ (nV g = 0 -> l' = [])
    /\ (forall fs fp,
          fs "collection.txt"%string = Some fp -> fscanf_s fp = [] ->
          readCollectionFile (F:=F) fs = None
          /\ main fs d diffPR maxIterations = None).
Proof.
  intros Hwf.
  destruct (calculatePageRank_trace l g d diffPR maxIterations Hwf)
    as (gWin & gWout & n & l' & HWin & HWout & Hrun & Hit & Hzero & Hcap
        & Hmid & Hstop).
  exists n, l'. split_and!; try done.
  - intros fs Hl Hg.
    by rewrite (main_returns fs l g d diffPR maxIterations Hl Hg), Hrun.
  - intros Hmax. assert (n = 0%nat) as -> by lia.
    simpl in Hit. injection Hit as <-. split_and!; try done.
    intros pi Hpi. unfold initialiseRankAndDegree in Hpi.
    apply list_elem_of_fmap in Hpi as (pi0 & -> & _). reflexivity.
  - intros Hmax Hself. destruct n as [|n]; [|lia].
    destruct Hzero as [Hz _]. specialize (Hz eq_refl).
    apply andb_false_iff in Hz as [Hz|Hz]; [|congruence].
    apply Z.ltb_ge in Hz. lia.
  - intros HnV. destruct Hwf as [Hsize _].
    apply calculatePageRank_urls in Hrun as (_ & _ & Hlen).
    apply nil_length_inv. rewrite Hlen. unfold size in Hsize. lia.
  - intros fs fp Hfs Hnone.
    assert (Hread : readCollectionFile (F:=F) fs = None).
    { apply readCollectionFile_None. right. by exists fp. }
    split; [done|]. unfold main. by rewrite Hread.
Qed.

End Configuration.


(** * Further properties over exact arithmetic *)

Section RationalMore.

Context {G : GraphADT Q}.
Implicit Types (l : list (Node Q)) (g : Graph Q).

(** ** More on sums *)

Lemma sumF_nil_Q : sumF ([] : list Q) = 0%Q.
Proof. reflexivity. Qed.

Lemma sumF_zero_iff (xs : list Q) :
  (forall x, x ∈ xs -> (0 <= x)%Q) ->
  (sumF xs == 0)%Q <-> Forall (fun x => (x == 0)%Q) xs.
Proof.
  induction xs as [|x xs IH]; intros Hxs.
  - split; [constructor | reflexivity].
  - rewrite sumF_cons.
    assert (Hx : (0 <= x)%Q) by (apply Hxs; by left).
    assert (Htail : forall y, y ∈ xs -> (0 <= y)%Q)
      by (intros y Hy; apply Hxs; by right).
    pose proof (sumF_nonneg xs Htail) as Hs.
    split.
    + intros Hsum. assert (Hx0 : (x == 0)%Q).
      { apply Qle_antisym; [|done]. rewrite <- Hsum.
        rewrite <- (Qplus_0_r x) at 1.
        apply Qplus_le_compat; [apply Qle_refl | done]. }
      constructor; [done|]. apply IH; [done|].
      rewrite Hx0, Qplus_0_l in Hsum. done.
    + intros Hall. apply Forall_cons in Hall as [Hx0 Hall].
      apply IH in Hall; [|done]. rewrite Hx0, Hall. reflexivity.
Qed.

Lemma sumF_scale (f : Z -> Q) (s : Q) (xs : list Z) :
  (sumF ((fun x => f x / s) <$> xs) == sumF (f <$> xs) / s)%Q.
Proof.
  induction xs as [|x xs IH].
  - simpl. rewrite sumF_nil_Q. unfold Qdiv. ring.
  - rewrite !fmap_cons, !sumF_cons, IH. unfold Qdiv. ring.
Qed.

Lemma Qabs_zero_iff (x : Q) : (Qabs x == 0)%Q <-> (x == 0)%Q.
Proof.
  split.
  - intros H0.
    assert (Hle : (Qabs x <= 0)%Q) by (rewrite H0; apply Qle_refl).
    apply Qabs_Qle_condition in Hle as [Hlo Hhi].
    by apply Qle_antisym.
  - intros ->. reflexivity.
Qed.

Lemma foldl_add_fmap {A} (t : A -> Q) (xs : list A) (a : Q) :
  foldl (fun acc x => acc + t x)%Q a xs = foldl Qplus a (t <$> xs).
Proof.
  revert a. induction xs as [|x xs IH]; intros a; simpl; [done | apply IH].
Qed.

(** ** calculateDiff *)

Lemma calculateDiff_eq0 l :
  (calculateDiff l == 0)%Q
  <-> Forall (fun pi => (rank pi == prevRank pi)%Q) l.
Proof.
  unfold calculateDiff. q_ops.
  rewrite (foldl_add_fmap (fun pi => Qabs (rank pi - prevRank pi))).
  change (foldl Qplus (inject_Z 0)
            ((fun pi : Node Q => Qabs (rank pi - prevRank pi)) <$> l))
    with (sumF ((fun pi : Node Q => Qabs (rank pi - prevRank pi)) <$> l)).
  rewrite sumF_zero_iff.
  - rewrite Forall_fmap. apply Forall_iff. intros pi. unfold compose.
    rewrite Qabs_zero_iff. split.
    + intros H0. apply Qplus_inj_r with (z := (- prevRank pi)%Q).
      rewrite Qplus_opp_r. exact H0.
    + intros ->. apply Qplus_opp_r.
  - intros x (pi & -> & _)%list_elem_of_fmap. apply Qabs_nonneg.
Qed.

(** X10.  calculateDiff is never negative, and it is 0 exactly if every
    node has its rank equal to its previous rank. *)
Theorem calculateDiff_zero l :
  (0 <= calculateDiff l)%Q
  /\ ((calculateDiff l == 0)%Q
      <-> Forall (fun pi => (rank pi == prevRank pi)%Q) l).
Proof. split; [apply calculateDiff_nonneg | apply calculateDiff_eq0]. Qed.

(** ** Degrees *)

Lemma length_filter_vertices (p : Z -> bool) g :
  Z.of_nat (length (List.filter p (vertices g))) <= Z.max 0 (nV g).
Proof.
  pose proof (filter_length_le p (vertices g)) as Hle.
  unfold vertices in *. rewrite length_seqZ in Hle. lia.
Qed.

(** X11.  Both degrees of a vertex are whole numbers between 0 and the
    number of vertices: incomingDegree is the number of in-neighbours and
    outgoingDegree the number of out-neighbours.  The 0.5 of effOut is used
    exactly for a vertex without out-neighbour; every other vertex keeps
    its out-degree, which is at least 1. *)
Theorem degrees_count g i :
  incomingDegree g i = inject_Z (Z.of_nat (length (inNeighbours g i)))
  /\ (outgoingDegree g i
      == inject_Z (Z.of_nat (length (outNeighbours g i))))%Q
  /\ (0 <= incomingDegree g i <= inject_Z (Z.max 0 (nV g)))%Q
  /\ (0 <= outgoingDegree g i <= inject_Z (Z.max 0 (nV g)))%Q
  /\ (outNeighbours g i = [] -> effOut (outgoingDegree g i) = (1 # 2)%Q)
  /\ (outNeighbours g i <> [] ->
      effOut (outgoingDegree g i) = outgoingDegree g i
      /\ (1 <= outgoingDegree g i)%Q).
Proof.
  pose proof (length_filter_vertices (fun j => isAdjacent g j i) g) as Hin.
  pose proof (length_filter_vertices (fun k => isAdjacent g i k) g) as Hout.
  fold (inNeighbours g i) in Hin. fold (outNeighbours g i) in Hout.
  refine (conj _ (conj _ (conj _ (conj _ (conj _ _))))).
  - apply incomingDegree_Q.
  - apply outgoingDegree_Q.
  - rewrite incomingDegree_Q. change 0%Q with (inject_Z 0).
    rewrite <- !Zle_Qle. lia.
  - rewrite outgoingDegree_Q. change 0%Q with (inject_Z 0).
    rewrite <- !Zle_Qle. lia.
  - intros Hnone. unfold effOut. q_ops.
    assert (H0 : (outgoingDegree g i == 0)%Q)
      by (rewrite outgoingDegree_Q, Hnone; reflexivity).
    apply Qeq_bool_iff in H0. change (inject_Z 0) with 0%Q. by rewrite H0.
  - intros Hsome.
    assert (H1 : (1 <= outgoingDegree g i)%Q).
    { rewrite outgoingDegree_Q. change 1%Q with (inject_Z 1).
      rewrite <- Zle_Qle. destruct (outNeighbours g i); [done | simpl; lia]. }
    split; [|done]. unfold effOut. q_ops. change (inject_Z 0) with 0%Q.
    destruct (Qeq_bool (outgoingDegree g i) 0) eqn:Heq; [|done].
    apply Qeq_bool_iff in Heq. rewrite Heq in H1. by apply Qle_not_lt in H1.
Qed.

Lemma sum_list_filter_cons (p : Z -> Z -> bool) x (xs ys : list Z) :
  sum_list ((fun y => length (List.filter (fun x0 => p y x0) (x :: xs)))
              <$> ys)
  = (length (List.filter (fun y => p y x) ys)
     + sum_list ((fun y => length (List.filter (fun x0 => p y x0) xs))
                   <$> ys))%nat.
Proof.
  induction ys as [|y ys IHy]; [done|].
  rewrite !fmap_cons. cbn [sum_list_with]. rewrite IHy.
  cbn [List.filter]. unfold id. destruct (p y x); cbn [length]; lia.
Qed.

Lemma sum_list_double_count (p : Z -> Z -> bool) (xs ys : list Z) :
  sum_list ((fun x => length (List.filter (fun y => p y x) ys)) <$> xs)
  = sum_list ((fun y => length (List.filter (fun x => p y x) xs)) <$> ys).
Proof.
  induction xs as [|x xs IH].
  - induction ys as [|y ys IHy]; [done|].
    rewrite fmap_cons. cbn [sum_list_with]. by rewrite <- IHy.
  - rewrite sum_list_filter_cons, <- IH, fmap_cons. done.
Qed.

Lemma sumF_inject (f : Z -> nat) (xs : list Z) :
  (sumF ((fun x => inject_Z (Z.of_nat (f x))) <$> xs)
   == inject_Z (Z.of_nat (sum_list (f <$> xs))))%Q.
Proof.
  induction xs as [|x xs IH].
  - reflexivity.
  - rewrite fmap_cons, sumF_cons, IH. simpl sum_list.
    rewrite Nat2Z.inj_add, inject_Z_plus. reflexivity.
Qed.

(** X12.  Over the vertices of a graph the in-degrees and the out-degrees
    add up to the same number: every edge is counted once on each side. *)
Theorem degree_sums g :
  (sumF (incomingDegree g <$> vertices g)
   == sumF (outgoingDegree g <$> vertices g))%Q.
Proof.
  rewrite (sumF_Qeq (outgoingDegree g)
             (fun j => inject_Z (Z.of_nat (length (outNeighbours g j)))))
    by (intros j _; apply outgoingDegree_Q).
  rewrite (sumF_Qeq (incomingDegree g)
             (fun i => inject_Z (Z.of_nat (length (inNeighbours g i)))))
    by (intros i _; rewrite incomingDegree_Q; reflexivity).
  rewrite !sumF_inject. unfold inNeighbours, outNeighbours.
  by rewrite (sum_list_double_count (isAdjacent g)).
Qed.


(** ** The rows of Win and Wout *)

Lemma effOut_id (x : Q) : (0 < x)%Q -> effOut x = x.
Proof.
  intros Hx. unfold effOut. q_ops. change (inject_Z 0) with 0%Q.
  destruct (Qeq_bool x 0) eqn:Heq; [|done].
  apply Qeq_bool_iff in Heq. rewrite Heq in Hx. by apply Qlt_irrefl in Hx.
Qed.

Lemma effOut_outgoing_ge g k : (1 # 2 <= effOut (outgoingDegree g k))%Q.
Proof.
  unfold effOut. q_ops. change (inject_Z 0) with 0%Q.
  destruct (Qeq_bool (outgoingDegree g k) 0) eqn:Heq; [apply Qle_refl|].
  apply Qeq_bool_neq in Heq. rewrite outgoingDegree_Q in *.
  destruct (outNeighbours g k) as [|x xs].
  - by destruct Heq.
  - apply Qle_trans with (inject_Z 1); [done|].
    rewrite <- Zle_Qle. simpl. lia.
Qed.

Lemma row_normalised (f : Z -> Q) (row : Z -> Q) (xs : list Z) :
  xs <> [] ->
  (forall x, x ∈ xs -> (0 < f x)%Q) ->
  (forall x, x ∈ xs -> row x = (f x / sumF (f <$> xs))%Q) ->
  (sumF (row <$> xs) == 1)%Q
  /\ forall x, x ∈ xs -> (0 < row x <= 1)%Q.
Proof.
  intros Hne Hpos Hrow.
  assert (Hnonneg : forall y, y ∈ f <$> xs -> (0 <= y)%Q).
  { intros y (x & -> & Hx)%list_elem_of_fmap. by apply Qlt_le_weak, Hpos. }
  assert (Hle : forall x, x ∈ xs -> (f x <= sumF (f <$> xs))%Q).
  { intros x Hx. apply sumF_elem; [done|]. by apply list_elem_of_fmap_2. }
  assert (Hsum : (0 < sumF (f <$> xs))%Q).
  { destruct xs as [|x xs']; [done|].
    eapply Qlt_le_trans; [apply (Hpos x); by left|]. apply Hle. by left. }
  split.
  - rewrite (sumF_Qeq row (fun x => f x / sumF (f <$> xs))%Q)
      by (intros x Hx; rewrite (Hrow x Hx); reflexivity).
    rewrite sumF_scale. field. intros H0. rewrite H0 in Hsum.
    by apply Qlt_irrefl in Hsum.
  - intros x Hx. rewrite (Hrow x Hx). split.
    + apply Qlt_shift_div_l; [done|]. rewrite Qmult_0_l. by apply Hpos.
    + apply Qle_shift_div_r; [done|]. rewrite Qmult_1_l. by apply Hle.
Qed.

(** X13.  For a vertex [j] with at least one out-neighbour and no edge to
    itself, row [j] of Win is a distribution over the out-neighbours of
    [j]: every entry is in (0, 1] and the entries add up to 1. *)
Theorem Win_row l g j :
  wf l g -> 0 <= j < nV g -> isAdjacent g j j = false ->
  outNeighbours g j <> [] ->
  exists gWin,
    setGraphWin (initialiseRankAndDegree l g (of_int (nV g))) g = Some gWin
    /\ (sumF (edges gWin j <$> outNeighbours g j) == 1)%Q
    /\ forall i, i ∈ outNeighbours g j -> (0 < edges gWin j i <= 1)%Q.
Proof.
  intros Hwf Hj Hjj Hne.
  destruct (setGraphWin_closed l g (of_int (nV g)) Hwf)
    as (gWin & HWin & _ & Hedges).
  exists gWin. split; [done|].
  apply (row_normalised (incomingDegree g)); [done| |].
  - intros i [Hi Hadj]%elem_of_outNeighbours.
    eapply Qlt_le_trans; [|by apply (incomingDegree_edge g j i)]. done.
  - intros i [Hi Hadj]%elem_of_outNeighbours.
    rewrite Hedges, Hadj. rewrite !bool_decide_eq_true_2 by done.
    destruct (Z.eqb_spec j i) as [->|]; [congruence | done].
Qed.

(** X14.  For a vertex [j] with at least one out-neighbour and no edge to
    itself, row [j] of Wout is a distribution over the out-neighbours of
    [j] as well; the 0.5 for the whole denominator is never used. *)
Theorem Wout_row l g j :
  wf l g -> 0 <= j < nV g -> isAdjacent g j j = false ->
  outNeighbours g j <> [] ->
  exists gWout,
    setGraphWout (initialiseRankAndDegree l g (of_int (nV g))) g = Some gWout
    /\ (sumF (edges gWout j <$> outNeighbours g j) == 1)%Q
    /\ (forall i, i ∈ outNeighbours g j -> (0 < edges gWout j i <= 1)%Q)
    /\ effOut (sumF ((fun k => effOut (outgoingDegree g k))
                       <$> outNeighbours g j))
       = sumF ((fun k => effOut (outgoingDegree g k)) <$> outNeighbours g j).
Proof.
  intros Hwf Hj Hjj Hne.
  destruct (setGraphWout_closed l g (of_int (nV g)) Hwf)
    as (gWout & HWout & _ & Hedges).
  assert (Hpos : forall k, (0 < effOut (outgoingDegree g k))%Q).
  { intros k. eapply Qlt_le_trans; [|apply effOut_outgoing_ge]. done. }
  assert (Hsum : (0 < sumF ((fun k => effOut (outgoingDegree g k))
                              <$> outNeighbours g j))%Q).
  { destruct (outNeighbours g j) as [|x xs] eqn:Hout; [done|].
    eapply Qlt_le_trans; [apply (Hpos x)|].
    apply sumF_elem.
    - intros y (k & -> & _)%list_elem_of_fmap. apply Qlt_le_weak, Hpos.
    - rewrite fmap_cons. by left. }
  exists gWout. split; [done|].
  assert (Hrow : (sumF (edges gWout j <$> outNeighbours g j) == 1)%Q
                 /\ forall i, i ∈ outNeighbours g j ->
                      (0 < edges gWout j i <= 1)%Q).
  { apply (row_normalised (fun k => effOut (outgoingDegree g k)));
      [done| |].
    - intros i _. apply Hpos.
    - intros i [Hi Hadj]%elem_of_outNeighbours.
      rewrite Hedges, Hadj. rewrite !bool_decide_eq_true_2 by done.
      destruct (Z.eqb_spec j i) as [->|]; [congruence|]. simpl.
      by rewrite (effOut_id _ Hsum). }
  destruct Hrow as [Hone Hbounds].
  split; [exact Hone|]. split; [exact Hbounds | by apply effOut_id].
Qed.


(** ** Ranks along a run *)

Lemma Qdiv_nonneg (a b : Q) : (0 <= a)%Q -> (0 <= b)%Q -> (0 <= a / b)%Q.
Proof.
  intros Ha Hb. unfold Qdiv. apply Qmult_le_0_compat; [done|].
  by apply Qinv_le_0_compat.
Qed.

Lemma effOut_nonneg (x : Q) : (0 <= x)%Q -> (0 <= effOut x)%Q.
Proof.
  intros Hx. unfold effOut. q_ops. by destruct (Qeq_bool x (inject_Z 0)).
Qed.

Lemma outgoingDegree_nonneg g k : (0 <= outgoingDegree g k)%Q.
Proof.
  rewrite outgoingDegree_Q. change 0%Q with (inject_Z 0).
  rewrite <- Zle_Qle. lia.
Qed.

Lemma engine_weights_nonneg l g gWin gWout :
  wf l g ->
  setGraphWin (initialiseRankAndDegree l g (of_int (nV g))) g = Some gWin ->
  setGraphWout (initialiseRankAndDegree l g (of_int (nV g))) g
    = Some gWout ->
  forall a b, (0 <= edges gWin a b)%Q /\ (0 <= edges gWout a b)%Q.
Proof.
  intros Hwf HWin HWout a b.
  destruct (setGraphWin_closed l g (of_int (nV g)) Hwf)
    as (gWin' & HWin' & _ & Hin).
  destruct (setGraphWout_closed l g (of_int (nV g)) Hwf)
    as (gWout' & HWout' & _ & Hout).
  assert (gWin' = gWin) as -> by congruence.
  assert (gWout' = gWout) as -> by congruence.
  rewrite Hin, Hout. destruct (_ && _); [|done]. split.
  - apply Qdiv_nonneg; [apply incomingDegree_nonneg|].
    apply sumF_nonneg. intros x (k & -> & _)%list_elem_of_fmap.
    apply incomingDegree_nonneg.
  - apply Qdiv_nonneg; apply effOut_nonneg;
      [apply outgoingDegree_nonneg|].
    apply sumF_nonneg. intros x (k & -> & _)%list_elem_of_fmap.
    apply effOut_nonneg, outgoingDegree_nonneg.
Qed.

Lemma rankAt_nonneg l :
  (forall n, n ∈ l -> (0 <= rank n)%Q) -> forall j, (0 <= rankAt l j)%Q.
Proof.
  intros Hl j. unfold rankAt, rankOf.
  destruct (getNode l j) as [n|] eqn:Hn; simpl; [|done].
  apply Hl. apply getNode_Some in Hn. tauto.
Qed.

Lemma weightSum_nonneg (prev : Z -> Q) g gWin gWout i :
  (forall j, (0 <= prev j)%Q) ->
  (forall a b, (0 <= edges gWin a b)%Q /\ (0 <= edges gWout a b)%Q) ->
  (0 <= weightSum prev g gWin gWout i)%Q.
Proof.
  intros Hprev Hw. unfold weightSum. apply sumF_nonneg.
  intros x (j & -> & _)%list_elem_of_fmap. q_ops.
  repeat apply Qmult_le_0_compat; [apply Hprev | apply Hw | apply Hw].
Qed.

Lemma stepList_bounds (d : Q) g gWin gWout l :
  (0 <= d <= 1)%Q -> 0 < nV g ->
  (forall a b, (0 <= edges gWin a b)%Q /\ (0 <= edges gWout a b)%Q) ->
  (forall n, n ∈ l -> (0 <= rank n)%Q) ->
  forall n, n ∈ stepList d (of_int (nV g)) g gWin gWout l ->
    ((1 - d) / inject_Z (nV g) <= rank n)%Q /\ (0 <= rank n)%Q.
Proof.
  intros [Hd0 Hd1] HnV Hw Hl n (pi & -> & _)%list_elem_of_fmap.
  cbn [rank set_rank]. unfold newRank. q_ops.
  change (inject_Z 1) with 1%Q.
  assert (HW : (0 <= d * weightSum (rankAt l) g gWin gWout (index pi))%Q).
  { apply Qmult_le_0_compat; [done|].
    apply weightSum_nonneg; [by apply rankAt_nonneg | done]. }
  assert (Hbase : (0 <= (1 - d) / inject_Z (nV g))%Q).
  { apply Qdiv_nonneg.
    - unfold Qminus. rewrite <- (Qplus_opp_r d).
      by apply Qplus_le_compat; [|apply Qle_refl].
    - change 0%Q with (inject_Z 0). rewrite <- Zle_Qle. lia. }
  split.
  - rewrite <- (Qplus_0_r ((1 - d) / inject_Z (nV g))) at 1.
    by apply Qplus_le_compat; [apply Qle_refl|].
  - replace 0%Q with (0 + 0)%Q by reflexivity. by apply Qplus_le_compat.
Qed.

Lemma iterSteps_nonneg (d : Q) g gWin gWout (n : nat) : forall l l',
  (0 <= d <= 1)%Q -> 0 < nV g ->
  (forall a b, (0 <= edges gWin a b)%Q /\ (0 <= edges gWout a b)%Q) ->
  wf l g -> (forall pi, pi ∈ l -> (0 <= rank pi)%Q) ->
  iterSteps d (of_int (nV g)) g gWin gWout n l = Some l' ->
  forall pi, pi ∈ l' -> (0 <= rank pi)%Q.
Proof.
  induction n as [|n IH]; intros l l' Hd HnV Hw Hwf Hl.
  - simpl. by intros [= <-].
  - intros (lm & Hlm & Hwfm & ->)%iterSteps_snoc; [|done].
    intros pi Hpi.
    by apply (stepList_bounds d g gWin gWout lm Hd HnV Hw
                (IH l lm Hd HnV Hw Hwf Hl Hlm) pi Hpi).
Qed.

Lemma initialise_nonneg l g :
  0 < nV g ->
  forall pi, pi ∈ initialiseRankAndDegree l g (of_int (nV g)) ->
    (0 <= rank pi)%Q.
Proof.
  intros HnV pi (pi0 & -> & _)%list_elem_of_fmap. cbn [rank]. q_ops.
  apply Qdiv_nonneg; [done|].
  change 0%Q with (inject_Z 0). rewrite <- Zle_Qle. lia.
Qed.

(** X15.  With a damping factor in [0, 1] and at least one page, no rank
    of the result is negative, and once a pass has been made
    ([maxIterations >= 2]) every rank is at least [(1 - d) / N]. *)
Theorem ranks_nonneg l g (d diffPR : Q) maxIterations :
  wf l g -> 0 < nV g -> (0 <= d <= 1)%Q ->
  exists i l',
    calculatePageRank l g d diffPR maxIterations = Some (i, l')
    /\ (forall pi, pi ∈ l' -> (0 <= rank pi)%Q)
    /\ (2 <= maxIterations ->
        forall pi, pi ∈ l' -> ((1 - d) / inject_Z (nV g) <= rank pi)%Q).
Proof.
  intros Hwf HnV Hd.
  destruct (calculatePageRank_trace l g d diffPR maxIterations Hwf)
    as (gWin & gWout & n & l' & HWin & HWout & Hrun & Hit & Hzero & _).
  pose proof (engine_weights_nonneg l g gWin gWout Hwf HWin HWout) as Hw.
  pose proof (wf_initialise l g (of_int (nV g)) Hwf) as Hwf1.
  exists (1 + Z.of_nat n), l'. split; [done|]. split.
  - apply (iterSteps_nonneg d g gWin gWout n _ l' Hd HnV Hw Hwf1);
      [by apply initialise_nonneg | done].
  - intros Hmax. destruct n as [|n].
    + destruct Hzero as [Hz _]. specialize (Hz eq_refl).
      apply andb_false_iff in Hz as [Hz|Hz].
      * apply Z.ltb_ge in Hz. lia.
      * apply dgeb_Q_false in Hz. by apply Qlt_irrefl in Hz.
    + apply iterSteps_snoc in Hit as (lm & Hlm & Hwfm & ->); [|done].
      intros pi Hpi.
      apply (stepList_bounds d g gWin gWout lm Hd HnV Hw); [|done].
      apply (iterSteps_nonneg d g gWin gWout n _ lm Hd HnV Hw Hwf1);
        [by apply initialise_nonneg | done].
Qed.


Lemma rankOf_stepList (d N : Q) g gWin gWout l j :
  wf l g -> 0 <= j < nV g ->
  rankOf (stepList d N g gWin gWout l) j
  = Some (newRank d N (weightSum (rankAt l) g gWin gWout j)).
Proof.
  intros Hwf Hj. unfold rankOf, stepList. rewrite getNode_fmap by done.
  by destruct (getNode_wf l g j Hwf Hj) as (n & -> & <- & _).
Qed.

Lemma newRank_no_weight (d N : Q) : (newRank d N (sumF []) == (1 - d) / N)%Q.
Proof.
  unfold newRank, sumF. q_ops. simpl.
  change (inject_Z 0) with 0%Q. change (inject_Z 1) with 1%Q.
  rewrite Qmult_0_r, Qplus_0_r. reflexivity.
Qed.

Lemma run_has_pass l g (d diffPR : Q) maxIterations (n : nat) :
  2 <= maxIterations ->
  (n = 0%nat <-> (1 <? maxIterations) && dgeb diffPR diffPR = false) ->
  (1 <= n)%nat.
Proof.
  intros Hmax Hzero. destruct n as [|n]; [|lia].
  destruct Hzero as [Hz _]. specialize (Hz eq_refl).
  apply andb_false_iff in Hz as [Hz|Hz].
  - apply Z.ltb_ge in Hz. lia.
  - apply dgeb_Q_false in Hz. by apply Qlt_irrefl in Hz.
Qed.

(** X16.  Once a pass has been made ([maxIterations >= 2]), a page without
    in-neighbour ends with the rank [(1 - d) / N], whatever the damping
    factor and the threshold. *)
Theorem source_pages l g (d diffPR : Q) maxIterations :
  wf l g -> 2 <= maxIterations ->
  exists i l',
    calculatePageRank l g d diffPR maxIterations = Some (i, l')
    /\ forall j, 0 <= j < nV g -> inNeighbours g j = [] ->
         exists r, rankOf l' j = Some r
                   /\ (r == (1 - d) / inject_Z (nV g))%Q.
Proof.
  intros Hwf Hmax.
  destruct (calculatePageRank_trace l g d diffPR maxIterations Hwf)
    as (gWin & gWout & n & l' & HWin & HWout & Hrun & Hit & Hzero & _).
  pose proof (run_has_pass l g d diffPR maxIterations n Hmax Hzero) as Hn.
  exists (1 + Z.of_nat n), l'. split; [done|]. intros j Hj Hnone.
  destruct n as [|n]; [lia|].
  apply iterSteps_snoc in Hit as (lm & Hlm & Hwfm & ->);
    [|by apply wf_initialise].
  eexists. split; [by apply rankOf_stepList|].
  unfold weightSum. rewrite Hnone. apply newRank_no_weight.
Qed.

Lemma inNeighbours_none g i :
  (forall a b, isAdjacent g a b = false) -> inNeighbours g i = [].
Proof.
  intros Hno. unfold inNeighbours.
  induction (vertices g) as [|x xs IH]; simpl; [done|]. by rewrite Hno.
Qed.

Lemma stepList_no_edges (d N : Q) g gWin gWout l :
  (forall a b, isAdjacent g a b = false) ->
  stepList d N g gWin gWout l
  = (fun pi => set_rank (newRank d N (sumF []))
                        (set_prevRank (rank pi) pi)) <$> l.
Proof.
  intros Hno. unfold stepList. apply list_fmap_ext. intros _ pi _.
  unfold weightSum. by rewrite inNeighbours_none.
Qed.

(** X17.  On a graph without edges and with a positive threshold the
    engine makes one or two passes when [maxIterations >= 2], and every
    page ends with the rank [(1 - d) / N]. *)
Theorem no_edges_run l g (d diffPR : Q) maxIterations :
  wf l g -> (forall a b, isAdjacent g a b = false) ->
  (0 < diffPR)%Q -> 2 <= maxIterations ->
  exists i l',
    calculatePageRank l g d diffPR maxIterations = Some (i, l')
    /\ 1 <= passes (i, l') <= 2
    /\ forall pi, pi ∈ l' -> (rank pi == (1 - d) / inject_Z (nV g))%Q.
Proof.
  intros Hwf Hno Heps Hmax.
  destruct (calculatePageRank_trace l g d diffPR maxIterations Hwf)
    as (gWin & gWout & n & l' & HWin & HWout & Hrun & Hit & Hzero & _
        & Hmid & _).
  pose proof (run_has_pass l g d diffPR maxIterations n Hmax Hzero) as Hn.
  pose proof (wf_initialise l g (of_int (nV g)) Hwf) as Hwf1.
  exists (1 + Z.of_nat n), l'. split; [done|]. split.
  - unfold passes. simpl. split; [lia|].
    destruct (decide (n <= 2)%nat) as [Hle|Hgt]; [lia|]. exfalso.
    set (l1 := initialiseRankAndDegree l g (of_int (nV g))) in *.
    set (N := of_int (nV g)) in *.
    assert (H2 : iterSteps d N g gWin gWout 2 l1
                 = Some (stepList d N g gWin gWout
                           (stepList d N g gWin gWout l1))).
    { cbn [iterSteps]. rewrite (rankStep_stepList d N l1 g) by done.
      simpl. rewrite (rankStep_stepList d N _ g) by by apply wf_stepList.
      done. }
    pose proof (Hmid 2%nat _ ltac:(lia) H2) as Hdiff.
    apply dgeb_Q_true in Hdiff.
    assert (H0 : (calculateDiff (stepList d N g gWin gWout
                                   (stepList d N g gWin gWout l1)) == 0)%Q).
    { apply calculateDiff_eq0. rewrite !stepList_no_edges by done.
      rewrite <- list_fmap_compose. apply Forall_fmap, Forall_forall.
      intros pi _. reflexivity. }
    rewrite H0 in Hdiff. by apply Qle_not_lt in Hdiff.
  - destruct n as [|n]; [lia|].
    apply iterSteps_snoc in Hit as (lm & Hlm & Hwfm & ->); [|done].
    rewrite stepList_no_edges by done.
    intros pi (pi0 & -> & _)%list_elem_of_fmap. apply newRank_no_weight.
Qed.

(** X18.  With the damping factor 0, a positive threshold and
    [maxIterations >= 2] the engine makes exactly one pass and every page
    ends with the rank [1 / N]. *)
Theorem no_damping_run l g (d diffPR : Q) maxIterations :
  wf l g -> (d == 0)%Q -> (0 < diffPR)%Q -> 2 <= maxIterations ->
  exists l',
    calculatePageRank l g d diffPR maxIterations = Some (2, l')
    /\ forall pi, pi ∈ l' -> (rank pi == 1 / inject_Z (nV g))%Q.
Proof.
  intros Hwf Hd Heps Hmax.
  destruct (calculatePageRank_trace l g d diffPR maxIterations Hwf)
    as (gWin & gWout & n & l' & HWin & HWout & Hrun & Hit & Hzero & _
        & Hmid & _).
  pose proof (run_has_pass l g d diffPR maxIterations n Hmax Hzero) as Hn.
  pose proof (wf_initialise l g (of_int (nV g)) Hwf) as Hwf1.
  set (l1 := initialiseRankAndDegree l g (of_int (nV g))) in *.
  set (N := of_int (nV g)) in *.
  assert (Hstep : forall pi, pi ∈ stepList d N g gWin gWout l1 ->
            (rank pi == 1 / inject_Z (nV g))%Q
            /\ prevRank pi = (1 / inject_Z (nV g))%Q).
  { intros pi (pi0 & -> & Hpi0)%list_elem_of_fmap. split.
    - cbn [rank set_rank]. unfold newRank, N. q_ops.
      change (inject_Z 1) with 1%Q. rewrite Hd. unfold Qdiv. ring.
    - cbn [prevRank set_rank set_prevRank].
      unfold l1, initialiseRankAndDegree in Hpi0.
      by apply list_elem_of_fmap in Hpi0 as (pi1 & -> & _). }
  assert (Hone : n = 1%nat).
  { destruct (decide (n <= 1)%nat) as [Hle|Hgt]; [lia|]. exfalso.
    assert (H1 : iterSteps d N g gWin gWout 1 l1
                 = Some (stepList d N g gWin gWout l1)).
    { cbn [iterSteps]. by rewrite (rankStep_stepList d N l1 g). }
    pose proof (Hmid 1%nat _ ltac:(lia) H1) as Hdiff.
    apply dgeb_Q_true in Hdiff.
    assert (H0 : (calculateDiff (stepList d N g gWin gWout l1) == 0)%Q).
    { apply calculateDiff_eq0, Forall_forall. intros pi Hpi.
      destruct (Hstep pi Hpi) as [Hr ->]. exact Hr. }
    rewrite H0 in Hdiff. by apply Qle_not_lt in Hdiff. }
  subst n. exists l'. split; [done|].
  apply iterSteps_snoc in Hit as (lm & Hlm & Hwfm & ->); [|done].
  simpl in Hlm. injection Hlm as <-. intros pi Hpi.
  by destruct (Hstep pi Hpi).
Qed.


(** ** The sum of the ranks *)

Lemma sumF_Permutation (xs ys : list Q) :
  xs ≡ₚ ys -> (sumF xs == sumF ys)%Q.
Proof.
  induction 1 as [|x xs ys _ IH|x y xs|xs ys zs _ IH1 _ IH2].
  - reflexivity.
  - rewrite !sumF_cons, IH. reflexivity.
  - rewrite !sumF_cons. ring.
  - by rewrite IH1.
Qed.

Lemma sumF_le {A} (f h : A -> Q) (xs : list A) :
  (forall x, x ∈ xs -> (f x <= h x)%Q) ->
  (sumF (f <$> xs) <= sumF (h <$> xs))%Q.
Proof.
  induction xs as [|x xs IH]; intros Hfh; [apply Qle_refl|].
  rewrite !fmap_cons, !sumF_cons. apply Qplus_le_compat.
  - apply Hfh. by left.
  - apply IH. intros y Hy. apply Hfh. by right.
Qed.

Lemma sumF_eq {A} (f h : A -> Q) (xs : list A) :
  (forall x, x ∈ xs -> (f x == h x)%Q) ->
  (sumF (f <$> xs) == sumF (h <$> xs))%Q.
Proof.
  intros Hfh. apply Qle_antisym; apply sumF_le; intros x Hx;
    rewrite (Hfh x Hx); apply Qle_refl.
Qed.

Lemma sumF_affine {A} (a c : Q) (f : A -> Q) (xs : list A) :
  (sumF ((fun x => a + c * f x) <$> xs)
   == inject_Z (Z.of_nat (length xs)) * a + c * sumF (f <$> xs))%Q.
Proof.
  induction xs as [|x xs IH].
  - simpl. rewrite sumF_nil_Q. change (inject_Z 0) with 0%Q. ring.
  - rewrite !fmap_cons, !sumF_cons, IH. cbn [length].
    rewrite Nat2Z.inj_succ. unfold Z.succ. rewrite inject_Z_plus.
    change (inject_Z 1) with 1%Q. ring.
Qed.

Lemma sumF_add {A} (f h : A -> Q) (xs : list A) :
  (sumF ((fun x => f x + h x) <$> xs)
   == sumF (f <$> xs) + sumF (h <$> xs))%Q.
Proof.
  induction xs as [|x xs IH].
  - simpl. rewrite sumF_nil_Q. ring.
  - rewrite !fmap_cons, !sumF_cons, IH. ring.
Qed.

Lemma sumF_filter (p : Z -> bool) (f : Z -> Q) (xs : list Z) :
  (sumF (f <$> List.filter p xs)
   == sumF ((fun x => if p x then f x else 0) <$> xs))%Q.
Proof.
  induction xs as [|x xs IH]; [reflexivity|].
  rewrite fmap_cons, sumF_cons. cbn [List.filter].
  destruct (p x).
  - rewrite fmap_cons, sumF_cons, IH. reflexivity.
  - rewrite IH. ring.
Qed.

Lemma sumF_zeros {A} (xs : list A) : (sumF ((fun _ => 0) <$> xs) == 0)%Q.
Proof.
  induction xs as [|x xs IH]; [reflexivity|].
  rewrite fmap_cons, sumF_cons, IH. ring.
Qed.

(** The sum over the edges, by target and by source. *)
Lemma sumF_exchange (p : Z -> Z -> bool) (t : Z -> Z -> Q) (ys : list Z) :
  forall xs,
  (sumF ((fun i => sumF ((fun j => t j i)
                           <$> List.filter (fun j => p j i) ys)) <$> xs)
   == sumF ((fun j => sumF ((fun i => t j i)
                              <$> List.filter (fun i => p j i) xs)) <$> ys))%Q.
Proof.
  induction xs as [|x xs IH].
  - rewrite fmap_nil, sumF_nil_Q. symmetry.
    transitivity (sumF ((fun _ : Z => 0%Q) <$> ys)); [|apply sumF_zeros].
    apply sumF_eq. intros j _. reflexivity.
  - rewrite fmap_cons, sumF_cons, IH, sumF_filter, <- sumF_add.
    apply sumF_eq. intros j _. cbn [List.filter].
    destruct (p j x).
    + rewrite fmap_cons, sumF_cons. reflexivity.
    + ring.
Qed.

Lemma Qdiv_self_le_1 (s : Q) : (0 <= s)%Q -> (s / s <= 1)%Q.
Proof.
  intros Hs. destruct (Qeq_dec s 0) as [H0|Hne].
  - rewrite H0. done.
  - unfold Qdiv. rewrite Qmult_inv_r by done. apply Qle_refl.
Qed.


Lemma Qeq_le (x y : Q) : (x == y)%Q -> (x <= y)%Q.
Proof. intros ->. apply Qle_refl. Qed.

Lemma sumF_mult_l {A} (c : Q) (f : A -> Q) (xs : list A) :
  (sumF ((fun x => c * f x) <$> xs) == c * sumF (f <$> xs))%Q.
Proof.
  induction xs as [|x xs IH].
  - simpl. rewrite sumF_nil_Q. ring.
  - rewrite !fmap_cons, !sumF_cons, IH. ring.
Qed.

Lemma engine_weights_le_1 l g gWin gWout :
  wf l g ->
  setGraphWin (initialiseRankAndDegree l g (of_int (nV g))) g = Some gWin ->
  setGraphWout (initialiseRankAndDegree l g (of_int (nV g))) g
    = Some gWout ->
  (forall a b, (edges gWout a b <= 1)%Q)
  /\ forall j, (sumF (edges gWin j <$> outNeighbours g j) <= 1)%Q.
Proof.
  intros Hwf HWin HWout.
  destruct (setGraphWin_closed l g (of_int (nV g)) Hwf)
    as (gWin' & HWin' & _ & Hin).
  destruct (setGraphWout_closed l g (of_int (nV g)) Hwf)
    as (gWout' & HWout' & _ & Hout).
  assert (gWin' = gWin) as -> by congruence.
  assert (gWout' = gWout) as -> by congruence.
  split.
  - intros a b. rewrite Hout.
    destruct (bool_decide (0 <= a < nV g) && bool_decide (0 <= b < nV g)
              && isAdjacent g a b && negb (a =? b)) eqn:Hc; [|done].
    apply andb_true_iff in Hc as [Hc _].
    apply andb_true_iff in Hc as [Hc Hadj].
    apply andb_true_iff in Hc as [_ Hb]. apply bool_decide_eq_true_1 in Hb.
    set (f := fun k => effOut (outgoingDegree g k)).
    assert (Hpos : forall k, (0 < f k)%Q).
    { intros k. eapply Qlt_le_trans; [|apply effOut_outgoing_ge]. done. }
    assert (Hle : (f b <= sumF (f <$> outNeighbours g a))%Q).
    { apply sumF_elem.
      - intros y (k & -> & _)%list_elem_of_fmap. apply Qlt_le_weak, Hpos.
      - apply list_elem_of_fmap_2. by apply elem_of_outNeighbours. }
    assert (Hsum : (0 < sumF (f <$> outNeighbours g a))%Q)
      by (eapply Qlt_le_trans; [apply (Hpos b) | done]).
    rewrite (effOut_id _ Hsum).
    apply Qle_shift_div_r; [done|]. by rewrite Qmult_1_l.
  - intros j.
    set (S := sumF (incomingDegree g <$> outNeighbours g j)).
    assert (HS : (0 <= S)%Q).
    { apply sumF_nonneg. intros x (k & -> & _)%list_elem_of_fmap.
      apply incomingDegree_nonneg. }
    apply Qle_trans
      with (sumF ((fun i => incomingDegree g i / S)%Q <$> outNeighbours g j)).
    + apply sumF_le. intros i _. rewrite Hin.
      destruct (_ && _); [apply Qle_refl|].
      apply Qdiv_nonneg; [apply incomingDegree_nonneg | done].
    + rewrite sumF_scale. by apply Qdiv_self_le_1.
Qed.

Lemma rankAt_node l g pi : wf l g -> pi ∈ l -> rankAt l (index pi) = rank pi.
Proof.
  intros Hwf Hpi. unfold rankAt, rankOf.
  destruct (getNode_wf l g (index pi) Hwf (wf_index_range l g pi Hwf Hpi))
    as (n & -> & Hidx & Hn). simpl.
  by rewrite (index_inj_NoDup l n pi (wf_NoDup l g Hwf) Hn Hpi Hidx).
Qed.

Lemma sumF_vertices (f : Z -> Q) l g :
  wf l g -> (sumF (f <$> vertices g) == sumF ((fun pi => f (index pi)) <$> l))%Q.
Proof.
  intros [HnV Hperm]. unfold vertices. rewrite HnV.
  change ((fun pi : Node Q => f (index pi)) <$> l) with ((f ∘ index) <$> l).
  rewrite (list_fmap_compose index f l). apply sumF_Permutation.
  by rewrite Hperm.
Qed.

Lemma stepList_mass (d : Q) g gWin gWout l :
  (0 <= d)%Q -> 0 < nV g -> wf l g ->
  (forall a b, (0 <= edges gWin a b)%Q /\ (0 <= edges gWout a b)%Q) ->
  (forall a b, (edges gWout a b <= 1)%Q) ->
  (forall j, (sumF (edges gWin j <$> outNeighbours g j) <= 1)%Q) ->
  (forall pi, pi ∈ l -> (0 <= rank pi)%Q) ->
  (sumF (ranks (stepList d (of_int (nV g)) g gWin gWout l))
   <= (1 - d) + d * sumF (ranks l))%Q.
Proof.
  intros Hd HnV Hwf Hw Hout1 Hrow Hl.
  set (W := weightSum (rankAt l) g gWin gWout).
  set (t := fun j i => (rankAt l j * edges gWout j i * edges gWin j i)%Q).
  pose proof (rankAt_nonneg l Hl) as Hp.
  (* the weights add up to at most the old ranks *)
  assert (HW : (sumF (W <$> vertices g) <= sumF (ranks l))%Q).
  { eapply Qle_trans;
      [apply Qeq_le;
       exact (sumF_exchange (isAdjacent g) t (vertices g) (vertices g))|].
    apply Qle_trans with (sumF (rankAt l <$> vertices g)).
    - apply sumF_le. intros j _. fold (outNeighbours g j).
      apply Qle_trans
        with (sumF ((fun i => rankAt l j * edges gWin j i)%Q
                      <$> outNeighbours g j)).
      + apply sumF_le. intros i _. unfold t.
        apply Qmult_le_compat_r; [|apply Hw].
        rewrite <- (Qmult_1_r (rankAt l j)) at 2.
        rewrite (Qmult_comm (rankAt l j) (edges gWout j i)).
        rewrite (Qmult_comm (rankAt l j) 1).
        apply Qmult_le_compat_r; [apply Hout1 | apply Hp].
      + rewrite sumF_mult_l. rewrite <- (Qmult_1_r (rankAt l j)) at 2.
        rewrite !(Qmult_comm (rankAt l j)).
        apply Qmult_le_compat_r; [apply Hrow | apply Hp].
    - rewrite (sumF_vertices (rankAt l) l g Hwf). apply Qeq_le.
      apply sumF_eq. intros pi Hpi. by rewrite (rankAt_node l g pi Hwf Hpi). }
  (* the new ranks, added up over the vertices *)
  assert (Hnew : (sumF (ranks (stepList d (of_int (nV g)) g gWin gWout l))
                  == (1 - d) + d * sumF (W <$> vertices g))%Q).
  { assert (Hranks : ranks (stepList d (of_int (nV g)) g gWin gWout l)
                     = (fun pi => (fun i => (1 - d) / inject_Z (nV g)
                                            + d * W i)%Q (index pi)) <$> l).
    { unfold ranks, stepList. rewrite <- list_fmap_compose.
      apply list_fmap_ext. intros _ pi _. reflexivity. }
    rewrite Hranks.
    rewrite <- (sumF_vertices
                  (fun i => (1 - d) / inject_Z (nV g) + d * W i)%Q l g Hwf).
    rewrite sumF_affine. unfold vertices. rewrite length_seqZ.
    rewrite Z2Nat.id by lia. field.
    change 0%Q with (inject_Z 0). rewrite inject_Z_injective. lia. }
  rewrite Hnew. apply Qplus_le_compat; [apply Qle_refl|].
  rewrite !(Qmult_comm d). by apply Qmult_le_compat_r.
Qed.

Lemma iterSteps_mass (d : Q) g gWin gWout (n : nat) : forall l l',
  (0 <= d <= 1)%Q -> 0 < nV g ->
  (forall a b, (0 <= edges gWin a b)%Q /\ (0 <= edges gWout a b)%Q) ->
  (forall a b, (edges gWout a b <= 1)%Q) ->
  (forall j, (sumF (edges gWin j <$> outNeighbours g j) <= 1)%Q) ->
  wf l g -> (forall pi, pi ∈ l -> (0 <= rank pi)%Q) ->
  (sumF (ranks l) <= 1)%Q ->
  iterSteps d (of_int (nV g)) g gWin gWout n l = Some l' ->
  (sumF (ranks l') <= 1)%Q.
Proof.
  induction n as [|n IH]; intros l l' Hd HnV Hw Hout1 Hrow Hwf Hl Hsum.
  - simpl. by intros [= <-].
  - intros (lm & Hlm & Hwfm & ->)%iterSteps_snoc; [|done].
    eapply Qle_trans.
    + apply stepList_mass; try done; [tauto|].
      by apply (iterSteps_nonneg d g gWin gWout n l lm).
    + pose proof (IH l lm Hd HnV Hw Hout1 Hrow Hwf Hl Hsum Hlm) as Hm.
      destruct Hd as [Hd0 Hd1].
      apply Qle_trans with ((1 - d) + d * 1)%Q; [|apply Qeq_le; ring].
      apply Qplus_le_compat; [apply Qle_refl|].
      rewrite !(Qmult_comm d). by apply Qmult_le_compat_r.
Qed.

Lemma initialise_mass l g :
  wf l g -> 0 < nV g ->
  (sumF (ranks (initialiseRankAndDegree l g (of_int (nV g)))) == 1)%Q.
Proof.
  intros [HnV _] Hpos.
  assert (Hranks : ranks (initialiseRankAndDegree l g (of_int (nV g)))
                   = replicate (length l) (1 / inject_Z (nV g))%Q).
  { unfold ranks, initialiseRankAndDegree.
    clear. induction l as [|pi l IH]; simpl; [done | by rewrite <- IH]. }
  rewrite Hranks, sumF_replicate. unfold size in HnV. rewrite <- HnV.
  field. change 0%Q with (inject_Z 0). rewrite inject_Z_injective. lia.
Qed.

(** X21.  With a damping factor in [0, 1] and at least one page the ranks
    of the result add up to at most 1, so no rank exceeds 1: the weighted
    update never creates rank. *)
Theorem rank_mass l g (d diffPR : Q) maxIterations :
  wf l g -> 0 < nV g -> (0 <= d <= 1)%Q ->
  exists i l',
    calculatePageRank l g d diffPR maxIterations = Some (i, l')
    /\ (sumF (ranks l') <= 1)%Q
    /\ forall pi, pi ∈ l' -> (rank pi <= 1)%Q.
Proof.
  intros Hwf HnV Hd.
  destruct (calculatePageRank_trace l g d diffPR maxIterations Hwf)
    as (gWin & gWout & n & l' & HWin & HWout & Hrun & Hit & _).
  pose proof (engine_weights_nonneg l g gWin gWout Hwf HWin HWout) as Hw.
  destruct (engine_weights_le_1 l g gWin gWout Hwf HWin HWout)
    as [Hout1 Hrow].
  pose proof (wf_initialise l g (of_int (nV g)) Hwf) as Hwf1.
  assert (Hnn : forall pi, pi ∈ l' -> (0 <= rank pi)%Q).
  { apply (iterSteps_nonneg d g gWin gWout n _ l' Hd HnV Hw Hwf1);
      [by apply initialise_nonneg | done]. }
  assert (Hsum : (sumF (ranks l') <= 1)%Q).
  { apply (iterSteps_mass d g gWin gWout n _ l' Hd HnV Hw Hout1 Hrow Hwf1);
      [by apply initialise_nonneg | | done].
    apply Qeq_le. by apply initialise_mass. }
  exists (1 + Z.of_nat n), l'. split; [done|]. split; [done|].
  intros pi Hpi. eapply Qle_trans; [|exact Hsum].
  apply sumF_elem.
  - intros x (pj & -> & Hpj)%list_elem_of_fmap. by apply Hnn.
  - by apply list_elem_of_fmap_2.
Qed.


End RationalMore.


(** * The theorems at the small collection *)

Lemma wf_pages2 : wf pages2 graph2.
Proof. split; reflexivity. Defined.

Example load2 :
  readCollectionFile files2 = Some pages2
  /\ createGraph files2 pages2 = Some graph2.
Proof. split; reflexivity. Qed.

(** What insertEdges reads of the two files: the first line is passed over,
    the "a" on the first line of the file of "b" with it. *)
Example linkWords2 :
  linkWords file_a
  = ["b"; "a"; "c"; "#end"; "Section-1"; "#start"; "Section-2"; "b"; "#end";
     "Section-2"]%string
  /\ linkWords file_b = ["#end"; "Section-1"]%string.
Proof. split; reflexivity. Qed.

Lemma wf_ranked2 : wf ranked2 graph2.
Proof.
  split; [reflexivity|]. change (index <$> ranked2) with [1; 0].
  change (seqZ 0 (size ranked2)) with [0; 1]. apply Permutation_swap.
Defined.

Lemma rank_update_formula_witness :
  wf ranked2 graph2
  /\ (forall j, 0 <= j < nV graph2 -> rankOf ranked2 j = Some (prev2 j))
  /\ exists l',
       rankStep (85 # 100)%Q (of_int (nV graph2)) graph2 graph2 graph2 ranked2
         = Some l'
       /\ forall i, 0 <= i < nV graph2 ->
            exists r, rankOf l' i = Some r
              /\ r = ((1 - (85 # 100)) / inject_Z (nV graph2)
                      + (85 # 100) * weightSum prev2 graph2 graph2 graph2 i)%Q
              /\ (inNeighbours graph2 i = [] ->
                  weightSum prev2 graph2 graph2 graph2 i = 0%Q
                  /\ (r == (1 - (85 # 100)) / inject_Z (nV graph2))%Q).
Proof.
  assert (Hprev : forall j, 0 <= j < nV graph2 ->
                    rankOf ranked2 j = Some (prev2 j)).
  { intros j Hj. change (nV graph2) with 2 in Hj.
    assert (j = 0 \/ j = 1) as [-> | ->] by lia; reflexivity. }
  split; [exact wf_ranked2|]. split; [exact Hprev|].
  exact (rank_update_formula ranked2 graph2 graph2 graph2 (85 # 100)%Q prev2
           wf_ranked2 Hprev).
Defined.


Lemma Wout_formula_witness :
  wf pages2 graph2
  /\ exists gWout,
       setGraphWout (initialiseRankAndDegree pages2 graph2 (of_int 2)) graph2
         = Some gWout
       /\ (forall j i, 0 <= j < 2 -> 0 <= i < 2 ->
             isAdjacent graph2 j i = true -> j <> i ->
             edges gWout j i
             = ddiv (effOut (outgoingDegree graph2 i))
                    (effOut (sumF ((fun k => effOut (outgoingDegree graph2 k))
                                     <$> outNeighbours graph2 j))))
       /\ (forall k, outgoingDegree graph2 k
                     = Nat.iter (length (outNeighbours graph2 k))
                                (fun x => dadd x (of_int 1)) (of_int 0)).
Proof.
  split; [exact wf_pages2|].
  exact (Wout_formula pages2 graph2 wf_pages2).
Defined.

Lemma Win_formula_witness :
  wf pages2 graph2
  /\ exists gWin gWout,
       setGraphWin (initialiseRankAndDegree pages2 graph2 (of_int 2)) graph2
         = Some gWin
       /\ setGraphWout (initialiseRankAndDegree pages2 graph2 (of_int 2))
            graph2 = Some gWout
       /\ (forall j i, 0 <= j < 2 -> 0 <= i < 2 ->
             isAdjacent graph2 j i = true -> j <> i ->
             edges gWin j i
             = ddiv (incomingDegree graph2 i)
                    (sumF (incomingDegree graph2 <$> outNeighbours graph2 j)))
       /\ (forall k, incomingDegree graph2 k
                     = of_int (Z.of_nat (length (inNeighbours graph2 k))))
       /\ (forall d diffPR maxIterations, exists (n : nat) l',
             calculatePageRank pages2 graph2 d diffPR maxIterations
               = Some (1 + Z.of_nat n, l')
             /\ iterSteps d (of_int 2) graph2 gWin gWout n
                  (initialiseRankAndDegree pages2 graph2 (of_int 2))
                  = Some l').
Proof.
  split; [exact wf_pages2|].
  exact (Win_formula pages2 graph2 wf_pages2).
Defined.

Lemma no_configuration_check_witness :
  wf pages2 graph2
  /\ exists (n : nat) l',
       calculatePageRank pages2 graph2 (85 # 100)%Q 0%Q 0
         = Some (1 + Z.of_nat n, l')
       /\ (forall fs, readCollectionFile fs = Some pages2 ->
             createGraph fs pages2 = Some graph2 ->
             main fs (85 # 100)%Q 0%Q 0 = Some l')
       /\ (0 <= 1 ->
             n = 0%nat
             /\ l' = initialiseRankAndDegree pages2 graph2 (of_int 2)
             /\ forall pi, pi ∈ l' -> rank pi = (1 / inject_Z 2)%Q)
       /\ (2 <= 0 -> dgeb 0%Q 0%Q = true -> (1 <= n)%nat)
       /\ (nV graph2 = 0 -> l' = [])
       /\ (forall fs fp,
             fs "collection.txt"%string = Some fp -> fscanf_s fp = [] ->
             readCollectionFile (F:=Q) fs = None
             /\ main fs (85 # 100)%Q 0%Q 0 = None).
Proof.
  split; [exact wf_pages2|].
  exact (no_configuration_check pages2 graph2 (85 # 100)%Q 0%Q 0 wf_pages2).
Defined.

Lemma initial_ranks_witness :
  wf pages2 graph2
  /\ (forall pi, pi ∈ initialiseRankAndDegree pages2 graph2 (of_int 2) ->
        rank pi = (1 / inject_Z 2)%Q
        /\ inDegree pi = inject_Z (inCount graph2 (index pi))
        /\ (outDegree pi == inject_Z (outCount graph2 (index pi)))%Q)
  /\ (exists gWin gWout,
        setGraphWin (initialiseRankAndDegree pages2 graph2 (of_int 2)) graph2
          = Some gWin
        /\ setGraphWout (initialiseRankAndDegree pages2 graph2 (of_int 2))
             graph2 = Some gWout
        /\ (forall j i, 0 <= j < 2 -> 0 <= i < 2 ->
              isAdjacent graph2 j i = true -> j <> i ->
              (edges gWin j i
               == inject_Z (inCount graph2 i)
                  / sumF ((fun k => inject_Z (inCount graph2 k))
                            <$> outNeighbours graph2 j))%Q
              /\ (edges gWout j i
                  == effOut (inject_Z (outCount graph2 i))
                     / effOut (sumF ((fun k =>
                                        effOut (inject_Z (outCount graph2 k)))
                                       <$> outNeighbours graph2 j)))%Q)
        /\ (forall d diffPR maxIterations, exists (n : nat) l',
              calculatePageRank pages2 graph2 d diffPR maxIterations
                = Some (1 + Z.of_nat n, l')
              /\ iterSteps d (of_int 2) graph2 gWin gWout n
                   (initialiseRankAndDegree pages2 graph2 (of_int 2))
                   = Some l'))
  /\ (0 < 2 ->
      (sumF (ranks (initialiseRankAndDegree pages2 graph2 (of_int 2))) == 1)%Q).
Proof.
  split; [exact wf_pages2|].
  exact (initial_ranks pages2 graph2 wf_pages2).
Defined.

Lemma Win_denominator_witness :
  wf pages2 graph2 /\ isAdjacent graph2 0 1 = true
  /\ exists total,
       pjTotalIncomingLinks
         (initialiseRankAndDegree pages2 graph2 (of_int 2)) graph2 0
         = Some total
       /\ total = sumF (incomingDegree graph2 <$> outNeighbours graph2 0)
       /\ (1 <= total)%Q /\ ~ (total == 0)%Q.
Proof.
  assert (Hadj : isAdjacent graph2 0 1 = true) by reflexivity.
  split; [exact wf_pages2|]. split; [exact Hadj|].
  refine (Win_denominator pages2 graph2 0 1 wf_pages2 _ _ Hadj);
    simpl; lia.
Defined.

Lemma two_nodes_one_edge_witness :
  wf pages2 graph2 /\ nV graph2 = 2
  /\ isAdjacent graph2 0 1 = true /\ isAdjacent graph2 1 0 = false
  /\ isAdjacent graph2 0 0 = false /\ isAdjacent graph2 1 1 = false
  /\ exists gWin gWout,
       setGraphWin (initialiseRankAndDegree pages2 graph2 (of_int 2)) graph2
         = Some gWin
       /\ setGraphWout (initialiseRankAndDegree pages2 graph2 (of_int 2))
            graph2 = Some gWout
       /\ (edges gWin 0 1 == 1)%Q /\ (edges gWout 0 1 == 1)%Q.
Proof.
  split; [exact wf_pages2|]. repeat (split; [reflexivity|]).
  exact (two_nodes_one_edge pages2 graph2 wf_pages2 eq_refl eq_refl eq_refl
           eq_refl eq_refl).
Defined.

Lemma no_self_loops_witness :
  createGraph files2 pages2 = Some graph2
  /\ (forall i, edges graph2 i i = of_int 0)
  /\ (forall l' gWin gWout,
        setGraphWin l' graph2 = Some gWin ->
        setGraphWout l' graph2 = Some gWout ->
        forall i, edges gWin i i = of_int 0 /\ edges gWout i i = of_int 0)
  /\ (forall g0 words curr,
        insertEdgesLoop g0 pages2 words curr
        = foldl GraphInsertEdge g0 (insertedEdges pages2 words curr)
        /\ forall e, e ∈ insertedEdges pages2 words curr ->
             v e = index curr /\ w e <> v e)
  /\ (forall g0 fp curr,
        insertEdges g0 pages2 fp curr
        = insertEdgesLoop g0 pages2 (linkWords fp) curr).
Proof.
  assert (Hload : createGraph files2 pages2 = Some graph2) by reflexivity.
  split; [exact Hload|].
  exact (no_self_loops files2 pages2 graph2 Hload).
Defined.

(** * Where the code departs from C2 and C5 as they are worded *)


(** C5 as worded promises that the engine refuses [maxIterations <= 0] and
    [diffPR <= 0] and returns no rank vector.  With [maxIterations = 0] it
    returns the initial ranks; with [diffPR = 0] and [maxIterations = 3] it
    makes two passes and returns their result. *)
Lemma configuration_check_counterexample :
  (0 <= 0
   /\ (ranks ∘ snd) <$>
        calculatePageRank pages2 graph2 (85 # 100)%Q (1 # 10000)%Q 0
      = Some [(1 # 2)%Q; (1 # 2)%Q])
  /\ ((0 <= 0)%Q
      /\ passes <$> calculatePageRank pages2 graph2 (85 # 100)%Q 0%Q 3
         = Some 2).
Proof. repeat split; vm_compute; congruence. Qed.

(** * Runs *)

(** The cycle of three pages with [d = 0.85], [diffPR = 0.0001] and
    [maxIterations = 100]: one pass, every rank 1/3. *)
Example cycle3 :
  match calculatePageRank pages3 graph3 (85 # 100)%Q (1 # 10000)%Q 100 with
  | Some r => passes r = 1 /\ Forall (fun pi => (rank pi == 1 # 3)%Q) (snd r)
  | None => False
  end.
Proof. vm_compute. split; [reflexivity|]. repeat constructor. Qed.

(** The two pages in binary64: both weights of the edge [0 -> 1] are 1.0,
    and with [d = 0.85], [diffPR = 0.00001] the run makes the same three
    passes as over the rationals. *)
Example binary64_two_nodes :
  (gWin ← setGraphWin
            (initialiseRankAndDegree fpages2 fgraph2 (of_int 2)) fgraph2;
   gWout ← setGraphWout
             (initialiseRankAndDegree fpages2 fgraph2 (of_int 2)) fgraph2;
   Some (edges gWin 0 1, edges gWout 0 1)) = Some (1%float, 1%float)
  /\ passes <$> calculatePageRank fpages2 fgraph2
                  (PrimFloat.div 85 100) (PrimFloat.div 1 100000) 100
     = Some 3
  /\ passes <$> calculatePageRank pages2 graph2
                  (85 # 100)%Q (1 # 100000)%Q 100
     = Some 3.
Proof. split_and!; vm_compute; reflexivity. Qed.

(** Rounding: in binary64 ten initial ranks [1 / 10] add up to a number
    just below 1. *)
Example binary64_initial_sum :
  PrimFloat.ltb
    (sumF (ranks (initialiseRankAndDegree fpages10 (GraphNew 10) (of_int 10))))
    1%float = true.
Proof. vm_compute. reflexivity. Qed.

(** Overflow: in binary64 a threshold of 0 can stop the loop before the
    cap.  With [d] near the largest double the ranks of the two pages leave
    the finite range, the difference becomes a NaN, and [diff >= diffPR]
    fails after the third pass of nine; with [d = 0.85] all nine are made.
    A NaN as threshold fails the test before the first pass. *)
Example binary64_overflow :
  passes <$> calculatePageRank fpages2 fgraph2
               0x1.1ccf385ebc8ap+1023%float 0%float 10
  = Some 3
  /\ passes <$> calculatePageRank fpages2 fgraph2
                  (PrimFloat.div 85 100) 0%float 10
     = Some 9
  /\ passes <$> calculatePageRank fpages2 fgraph2
                  (PrimFloat.div 85 100) (PrimFloat.div 0 0) 10
     = Some 0.
Proof. split_and!; vm_compute; reflexivity. Qed.

(** * The further properties at the small collection *)

Lemma wf_unlinked2 : wf pages2 unlinked2.
Proof. split; reflexivity. Defined.

Lemma getNode_lookup_witness :
  wf pages2 graph2
  /\ forall i,
       (forall n, getNode pages2 i = Some n <-> n ∈ pages2 /\ index n = i)
       /\ (getNode pages2 i = None <-> ~ (0 <= i < size pages2)).
Proof.
  split; [exact wf_pages2|]. exact (getNode_lookup pages2 graph2 wf_pages2).
Defined.

Lemma NoDup_urls_pages2 : NoDup (url <$> pages2).
Proof.
  change (url <$> pages2) with ["a"; "b"]%string.
  apply NoDup_cons. split.
  - intros [H|H]%elem_of_cons; [discriminate H | by apply elem_of_nil in H].
  - apply NoDup_singleton.
Defined.

Lemma getUrlIndex_of_node_witness :
  NoDup (url <$> pages2)
  /\ forall n, n ∈ pages2 -> getUrlIndex pages2 (url n) = index n.
Proof.
  split; [exact NoDup_urls_pages2|].
  exact (getUrlIndex_of_node pages2 NoDup_urls_pages2).
Defined.

Lemma createGraph_edges_from_links_witness :
  createGraph files2 pages2 = Some graph2
  /\ forall a b, edges graph2 a b <> of_int 0 ->
       exists curr fp word,
         curr ∈ pages2 /\ index curr = a
         /\ files2 (url curr ++ ".txt")%string = Some fp
         /\ word ∈ linkWords fp /\ word <> "#end"%string
         /\ getUrlIndex pages2 word = b /\ 0 <= b /\ b <> a.
Proof.
  assert (Hload : createGraph files2 pages2 = Some graph2) by reflexivity.
  split; [exact Hload|].
  exact (createGraph_edges_from_links files2 pages2 graph2 Hload).
Defined.

Lemma weights_support_witness :
  wf pages2 graph2
  /\ exists gWin gWout,
       setGraphWin (initialiseRankAndDegree pages2 graph2 (of_int 2)) graph2
         = Some gWin
       /\ setGraphWout (initialiseRankAndDegree pages2 graph2 (of_int 2))
            graph2 = Some gWout
       /\ nV gWin = 2 /\ nV gWout = 2
       /\ forall a b,
            ~ (0 <= a < 2) \/ ~ (0 <= b < 2)
            \/ isAdjacent graph2 a b = false \/ a = b ->
            edges gWin a b = of_int 0 /\ edges gWout a b = of_int 0.
Proof.
  split; [exact wf_pages2|]. exact (weights_support pages2 graph2 wf_pages2).
Defined.


Lemma out0_graph2 : outNeighbours graph2 0 <> [].
Proof. change (outNeighbours graph2 0) with [1]. discriminate. Defined.

Lemma Win_row_witness :
  wf pages2 graph2 /\ isAdjacent graph2 0 0 = false
  /\ outNeighbours graph2 0 <> []
  /\ exists gWin,
       setGraphWin (initialiseRankAndDegree pages2 graph2 (of_int 2)) graph2
         = Some gWin
       /\ (sumF (edges gWin 0 <$> outNeighbours graph2 0) == 1)%Q
       /\ forall i, i ∈ outNeighbours graph2 0 ->
            (0 < edges gWin 0 i <= 1)%Q.
Proof.
  split; [exact wf_pages2|]. split; [reflexivity|].
  split; [exact out0_graph2|].
  refine (Win_row pages2 graph2 0 wf_pages2 _ eq_refl out0_graph2).
  simpl. lia.
Defined.

Lemma Wout_row_witness :
  wf pages2 graph2 /\ isAdjacent graph2 0 0 = false
  /\ outNeighbours graph2 0 <> []
  /\ exists gWout,
       setGraphWout (initialiseRankAndDegree pages2 graph2 (of_int 2)) graph2
         = Some gWout
       /\ (sumF (edges gWout 0 <$> outNeighbours graph2 0) == 1)%Q
       /\ (forall i, i ∈ outNeighbours graph2 0 ->
             (0 < edges gWout 0 i <= 1)%Q)
       /\ effOut (sumF ((fun k => effOut (outgoingDegree graph2 k))
                          <$> outNeighbours graph2 0))
          = sumF ((fun k => effOut (outgoingDegree graph2 k))
                    <$> outNeighbours graph2 0).
Proof.
  split; [exact wf_pages2|]. split; [reflexivity|].
  split; [exact out0_graph2|].
  refine (Wout_row pages2 graph2 0 wf_pages2 _ eq_refl out0_graph2).
  simpl. lia.
Defined.

Lemma d85_in_range : (0 <= 85 # 100 <= 1)%Q.
Proof. split; discriminate. Defined.

Lemma ranks_nonneg_witness :
  wf pages2 graph2 /\ 0 < nV graph2 /\ (0 <= 85 # 100 <= 1)%Q
  /\ exists i l',
       calculatePageRank pages2 graph2 (85 # 100)%Q (1 # 10000)%Q 100
         = Some (i, l')
       /\ (forall pi, pi ∈ l' -> (0 <= rank pi)%Q)
       /\ (2 <= 100 ->
           forall pi, pi ∈ l' ->
             ((1 - (85 # 100)) / inject_Z (nV graph2) <= rank pi)%Q).
Proof.
  assert (Hpos : 0 < nV graph2) by (simpl; lia).
  split; [exact wf_pages2|]. split; [exact Hpos|].
  split; [exact d85_in_range|].
  exact (ranks_nonneg pages2 graph2 (85 # 100)%Q (1 # 10000)%Q 100
           wf_pages2 Hpos d85_in_range).
Defined.

Lemma source_pages_witness :
  wf pages2 graph2 /\ 2 <= 100
  /\ exists i l',
       calculatePageRank pages2 graph2 (85 # 100)%Q (1 # 10000)%Q 100
         = Some (i, l')
       /\ forall j, 0 <= j < nV graph2 -> inNeighbours graph2 j = [] ->
            exists r, rankOf l' j = Some r
                      /\ (r == (1 - (85 # 100)) / inject_Z (nV graph2))%Q.
Proof.
  assert (Hmax : 2 <= 100) by lia.
  split; [exact wf_pages2|]. split; [exact Hmax|].
  exact (source_pages pages2 graph2 (85 # 100)%Q (1 # 10000)%Q 100
           wf_pages2 Hmax).
Defined.

Lemma no_edges_run_witness :
  wf pages2 unlinked2 /\ (forall a b, isAdjacent unlinked2 a b = false)
  /\ (0 < 1 # 10000)%Q /\ 2 <= 100
  /\ exists i l',
       calculatePageRank pages2 unlinked2 (85 # 100)%Q (1 # 10000)%Q 100
         = Some (i, l')
       /\ 1 <= passes (i, l') <= 2
       /\ forall pi, pi ∈ l' ->
            (rank pi == (1 - (85 # 100)) / inject_Z (nV unlinked2))%Q.
Proof.
  assert (Hno : forall a b, isAdjacent unlinked2 a b = false)
    by (intros a b; reflexivity).
  assert (Heps : (0 < 1 # 10000)%Q) by reflexivity.
  assert (Hmax : 2 <= 100) by lia.
  split; [exact wf_unlinked2|]. split; [exact Hno|].
  split; [exact Heps|]. split; [exact Hmax|].
  exact (no_edges_run pages2 unlinked2 (85 # 100)%Q (1 # 10000)%Q 100
           wf_unlinked2 Hno Heps Hmax).
Defined.

Lemma no_damping_run_witness :
  wf pages2 graph2 /\ (0 == 0)%Q /\ (0 < 1 # 10000)%Q /\ 2 <= 100
  /\ exists l',
       calculatePageRank pages2 graph2 0%Q (1 # 10000)%Q 100 = Some (2, l')
       /\ forall pi, pi ∈ l' -> (rank pi == 1 / inject_Z (nV graph2))%Q.
Proof.
  assert (Hd : (0 == 0)%Q) by reflexivity.
  assert (Heps : (0 < 1 # 10000)%Q) by reflexivity.
  assert (Hmax : 2 <= 100) by lia.
  split; [exact wf_pages2|]. split; [exact Hd|].
  split; [exact Heps|]. split; [exact Hmax|].
  exact (no_damping_run pages2 graph2 0%Q (1 # 10000)%Q 100
           wf_pages2 Hd Heps Hmax).
Defined.

Lemma Matrix_keeps_occupied :
  forall (g : Graph Q) (e : Edge Q),
    weight e = of_int 1 ->
    edges g (v e) (w e) <> of_int 0 ->
    edges (GraphInsertEdge g e) (v e) (w e) <> of_int 0.
Proof.
  intros g e Hweight Hocc. simpl. unfold MatrixInsertEdge.
  destruct (v e =? w e); [exact Hocc|]. simpl.
  rewrite !Z.eqb_refl. simpl. rewrite Hweight. discriminate.
Defined.

Lemma createGraph_links_become_edges_witness :
  (forall (g : Graph Q) (e : Edge Q),
     weight e = of_int 1 ->
     edges g (v e) (w e) <> of_int 0 ->
     edges (GraphInsertEdge g e) (v e) (w e) <> of_int 0)
  /\ of_int 1 <> (of_int 0 : Q)
  /\ createGraph files2 pages2 = Some graph2
  /\ page "a" 0 ∈ pages2
  /\ files2 (url (page "a" 0) ++ ".txt")%string = Some file_a
  /\ linkWords file_a
     = ([] : list string)
       ++ "b"%string :: ["a"; "c"; "#end"; "Section-1"; "#start"; "Section-2";
                         "b"; "#end"; "Section-2"]%string
  /\ ("#end"%string ∉ ([] : list string))
  /\ "b"%string <> "#end"%string
  /\ 0 <= getUrlIndex pages2 "b"
  /\ getUrlIndex pages2 "b" <> index (page "a" 0)
  /\ edges graph2 (index (page "a" 0)) (getUrlIndex pages2 "b") <> of_int 0.
Proof.
  assert (H10 : of_int 1 <> (of_int 0 : Q)) by discriminate.
  assert (Hload : createGraph files2 pages2 = Some graph2) by reflexivity.
  assert (Hin : page "a" 0 ∈ pages2) by (left).
  assert (Hfs : files2 (url (page "a" 0) ++ ".txt")%string = Some file_a)
    by reflexivity.
  assert (Hwords : linkWords file_a
                   = ([] : list string)
                     ++ "b"%string
                        :: ["a"; "c"; "#end"; "Section-1"; "#start";
                            "Section-2"; "b"; "#end"; "Section-2"]%string)
    by reflexivity.
  assert (Hend : "#end"%string ∉ ([] : list string))
    by (intros H; by apply elem_of_nil in H).
  assert (Hword : "b"%string <> "#end"%string) by discriminate.
  assert (Hpos : 0 <= getUrlIndex pages2 "b") by (vm_compute; discriminate).
  assert (Hself : getUrlIndex pages2 "b" <> index (page "a" 0))
    by (vm_compute; discriminate).
  split; [exact Matrix_keeps_occupied|]. split; [exact H10|].
  split; [exact Hload|]. split; [exact Hin|]. split; [exact Hfs|].
  split; [exact Hwords|].
  split; [exact Hend|]. split; [exact Hword|]. split; [exact Hpos|].
  split; [exact Hself|].
  exact (createGraph_links_become_edges files2 pages2 graph2
           Matrix_keeps_occupied H10 Hload (page "a" 0) file_a [] "b"%string
           ["a"; "c"; "#end"; "Section-1"; "#start"; "Section-2"; "b";
            "#end"; "Section-2"]%string Hin Hfs Hwords Hend Hword Hpos Hself).
Defined.

Lemma rank_mass_witness :
  wf pages2 graph2 /\ 0 < nV graph2 /\ (0 <= 85 # 100 <= 1)%Q
  /\ exists i l',
       calculatePageRank pages2 graph2 (85 # 100)%Q (1 # 10000)%Q 100
         = Some (i, l')
       /\ (sumF (ranks l') <= 1)%Q
       /\ forall pi, pi ∈ l' -> (rank pi <= 1)%Q.
Proof.
  assert (Hpos : 0 < nV graph2) by (simpl; lia).
  split; [exact wf_pages2|]. split; [exact Hpos|].
  split; [exact d85_in_range|].
  exact (rank_mass pages2 graph2 (85 # 100)%Q (1 # 10000)%Q 100
           wf_pages2 Hpos d85_in_range).
Defined.
